(** * Canonical correspondence analysis ([skbio.stats.ordination.cca])

    A shallow embedding of
    [src/skbio/stats/ordination/_canonical_correspondence_analysis.py].

    Numbers.  The tables hold real numbers; they are modelled by exact
    rationals [Q].  Rounding, infinities and NaN of binary64 are outside the
    model.  The irrational functions of numpy ([np.sqrt], [**0.5], [**-0.5])
    and the LAPACK routines ([np.linalg.lstsq], [np.linalg.svd]) are fields
    of a record [Numpy] the whole development is parametric in.

    Arrays.  A two-dimensional [ndarray] is its shape and its indexing
    function, a one-dimensional one is a list.  numpy checks shapes when it
    broadcasts, multiplies or stacks; these checks are modelled, and a
    failed check is an error of the [res] monad, as a Python exception is.

    Helpers.  [scale], [corr] and [svd_rank] live in [_utils.py], which is
    not among the sources; they are modelled from the specification.

    Result.  The last lines of [cca] build pandas objects through names the
    module does not bind; see [assemble] for how they are read. *)

From Stdlib Require Import String List Arith ZArith QArith Qminmax Qabs Lia Lqa Bool.
Import ListNotations.

Open Scope Q_scope.

(** ** Exceptions *)

(** The exceptions [cca] can end with.  The first four are raised by [cca]
    itself (three [ValueError]s told apart by their message, and one
    [NotImplementedError]); the others are the [ValueError]s numpy raises on
    a reduction of a zero-size array and on operands whose shapes do not fit,
    the error of [scale] on weights of the wrong length, and the
    [UnboundLocalError] of a variable no branch has assigned. *)
Inductive Error : Type :=
| RowCountMismatch (x_rows y_rows : nat)
| NegativeAbundance
| DegenerateSampleRow
| UnsupportedScaling (scaling : Z)
| ZeroSizeReduction
| ShapeMismatch
| DimensionMismatch
| UnboundLocal.

Definition res (A : Type) : Type := (Error + A)%type.

Definition ret {A : Type} (a : A) : res A := inr a.
Definition raise {A : Type} (e : Error) : res A := inl e.

Definition bind {A B : Type} (m : res A) (k : A -> res B) : res B :=
  match m with
  | inl e => inl e
  | inr a => k a
  end.

Notation "x <- m ;; k" := (bind m (fun x => k))
  (at level 61, m at next level, right associativity).

Definition raises {A : Type} (m : res A) : Prop := exists e, m = inl e.
Definition returns {A : Type} (m : res A) : Prop := exists a, m = inr a.

(** ** Arrays *)

Record ndarray : Type := mkArray {
  nrows : nat;
  ncols : nat;
  at2 : nat -> nat -> Q
}.

Definition shape (A : ndarray) : nat * nat := (nrows A, ncols A).

(** [A[i, :]] and [A[:, j]] as one-dimensional arrays. *)
Definition row (A : ndarray) (i : nat) : list Q :=
  map (at2 A i) (seq 0 (ncols A)).
Definition col (A : ndarray) (j : nat) : list Q :=
  map (fun i => at2 A i j) (seq 0 (nrows A)).

(** All the entries, in row-major order. *)
Definition entries (A : ndarray) : list Q :=
  flat_map (row A) (seq 0 (nrows A)).

Definition of_rows (n m : nat) (l : list (list Q)) : ndarray :=
  mkArray n m (fun i j => nth j (nth i l []) 0).
Definition to_rows (A : ndarray) : list (list Q) :=
  map (row A) (seq 0 (nrows A)).

Definition Qlt_bool (a b : Q) : bool := negb (Qle_bool b a).

Definition Qsum (l : list Q) : Q := fold_left Qplus l 0.

(** The reductions: [A.sum()], [A.sum(axis=0)], [A.sum(axis=1)]. *)
Definition asum (A : ndarray) : Q := Qsum (entries A).
Definition sum_axis0 (A : ndarray) : list Q :=
  map (fun j => Qsum (col A j)) (seq 0 (ncols A)).
Definition sum_axis1 (A : ndarray) : list Q :=
  map (fun i => Qsum (row A i)) (seq 0 (nrows A)).

(** [min] and [max] have no identity: numpy raises on an empty operand. *)
Definition lmin (l : list Q) : res Q :=
  match l with
  | [] => raise ZeroSizeReduction
  | x :: l' => ret (fold_left Qmin l' x)
  end.
Definition lmax (l : list Q) : res Q :=
  match l with
  | [] => raise ZeroSizeReduction
  | x :: l' => ret (fold_left Qmax l' x)
  end.

Fixpoint mapM {A B : Type} (f : A -> res B) (l : list A) : res (list B) :=
  match l with
  | [] => ret []
  | a :: l' => b <- f a ;; bs <- mapM f l' ;; ret (b :: bs)
  end.

(** [A.min()] and [A.max(axis=1)]. *)
Definition amin (A : ndarray) : res Q := lmin (entries A).
Definition amax_axis1 (A : ndarray) : res (list Q) :=
  mapM (fun i => lmax (row A i)) (seq 0 (nrows A)).

(** ** Tables *)

(** A pandas [DataFrame]: the values and the two label lists.  The
    constructors of [Series] and [DataFrame] are taken to store what they
    are given. *)
Record DataFrame : Type := mkDataFrame {
  df_values : ndarray;
  df_index : list string;
  df_columns : list string
}.

Record Series : Type := mkSeries {
  sr_values : list Q;
  sr_index : list string
}.

Definition as_matrix (d : DataFrame) : ndarray := df_values d.

(** ** Input validation (lines 107-123) *)

Definition scaling_supported (scaling : Z) : bool :=
  ((scaling =? 1) || (scaling =? 2))%Z.

Definition validate (Y X : ndarray) (scaling : Z) : res unit :=
  if negb (nrows X =? nrows Y)%nat then
    raise (RowCountMismatch (nrows X) (nrows Y))
  else
    Ymin <- amin Y ;;
    if Qlt_bool Ymin 0 then raise NegativeAbundance
    else
      row_max <- amax_axis1 Y ;;
      if existsb (fun v => Qle_bool v 0) row_max then
        raise DegenerateSampleRow
      else if negb (scaling_supported scaling) then
        raise (UnsupportedScaling scaling)
      else ret tt.

(** ** Shape-checked array operations *)

(** numpy's broadcasting rule for one dimension: equal sizes, or one of
    them is 1 and is stretched. *)
Definition bdim (a b : nat) : res nat :=
  if (a =? b)%nat then ret a
  else if (a =? 1)%nat then ret b
  else if (b =? 1)%nat then ret a
  else raise ShapeMismatch.

Definition bidx (d i : nat) : nat := if (d =? 1)%nat then 0%nat else i.

(** An element-wise binary operator on two 2-d arrays, with broadcasting. *)
Definition broadcast2 (f : Q -> Q -> Q) (A B : ndarray) : res ndarray :=
  n <- bdim (nrows A) (nrows B) ;;
  m <- bdim (ncols A) (ncols B) ;;
  ret (mkArray n m (fun i j =>
         f (at2 A (bidx (nrows A) i) (bidx (ncols A) j))
           (at2 B (bidx (nrows B) i) (bidx (ncols B) j)))).

(** [v[:, None]] and a 1-d array as numpy aligns it with a 2-d one. *)
Definition col_vec (v : list Q) : ndarray :=
  mkArray (length v) 1 (fun i _ => nth i v 0).
Definition row_vec (v : list Q) : ndarray :=
  mkArray 1 (length v) (fun _ j => nth j v 0).

Definition amap (f : Q -> Q) (A : ndarray) : ndarray :=
  mkArray (nrows A) (ncols A) (fun i j => f (at2 A i j)).

Definition div_scalar (A : ndarray) (c : Q) : ndarray :=
  amap (fun a => a / c) A.

Definition outer (a b : list Q) : ndarray :=
  mkArray (length a) (length b) (fun i j => nth i a 0 * nth j b 0).

Definition transpose (A : ndarray) : ndarray :=
  mkArray (ncols A) (nrows A) (fun i j => at2 A j i).

(** [A[:r]] and [A[:, :r]]. *)
Definition take_rows (r : nat) (A : ndarray) : ndarray :=
  mkArray (Nat.min r (nrows A)) (ncols A) (at2 A).
Definition take_cols (r : nat) (A : ndarray) : ndarray :=
  mkArray (nrows A) (Nat.min r (ncols A)) (at2 A).

Definition dot (A B : ndarray) : res ndarray :=
  if (ncols A =? nrows B)%nat then
    ret (mkArray (nrows A) (ncols B) (fun i j =>
           Qsum (map (fun k => at2 A i k * at2 B k j) (seq 0 (ncols A)))))
  else raise ShapeMismatch.

Definition hstack (A B : ndarray) : res ndarray :=
  if (nrows A =? nrows B)%nat then
    ret (mkArray (nrows A) (ncols A + ncols B) (fun i j =>
           if (j <? ncols A)%nat then at2 A i j else at2 B i (j - ncols A)))
  else raise ShapeMismatch.

(** ** What numpy computes behind the scenes *)

Record SVD : Type := mkSVD {
  svd_u : ndarray;
  svd_s : list Q;
  svd_vt : ndarray
}.

(** [pow_half] is [x ** 0.5] and [pow_neg_half] is [x ** -0.5]; the integer
    powers [**2] and [**-1] are a product and a reciprocal.  Of the four
    values [np.linalg.lstsq] returns, [cca] binds the solution and the rank;
    [np.linalg.svd] is called with [full_matrices=False]. *)
Record Numpy : Type := mkNumpy {
  np_sqrt : Q -> Q;
  pow_half : Q -> Q;
  pow_neg_half : Q -> Q;
  linalg_lstsq : ndarray -> ndarray -> ndarray * nat;
  linalg_svd : ndarray -> SVD
}.

(** Machine epsilon of binary64, [np.finfo(float).eps]. *)
Definition eps : Q := 1 # (2 ^ 52).

Inductive descending : list Q -> Prop :=
| desc_nil : descending []
| desc_one : forall a, descending [a]
| desc_cons : forall a b l, b <= a -> descending (b :: l) -> descending (a :: b :: l).

(** What the numpy documentation promises of the two LAPACK routines, as
    far as [cca] relies on it: the shapes of the results, and singular
    values that are non-negative and sorted in descending order. *)
Record linalg_ok (np : Numpy) : Prop := mkLinalgOk {
  lstsq_shape : forall a b, nrows a = nrows b ->
    nrows (fst (linalg_lstsq np a b)) = ncols a /\
    ncols (fst (linalg_lstsq np a b)) = ncols b;
  svd_shape : forall M,
    let k := Nat.min (nrows M) (ncols M) in
    nrows (svd_u (linalg_svd np M)) = nrows M /\
    ncols (svd_u (linalg_svd np M)) = k /\
    length (svd_s (linalg_svd np M)) = k /\
    nrows (svd_vt (linalg_svd np M)) = k /\
    ncols (svd_vt (linalg_svd np M)) = ncols M;
  svd_sorted : forall M, descending (svd_s (linalg_svd np M));
  svd_nonneg : forall M, Forall (fun x => 0 <= x) (svd_s (linalg_svd np M))
}.

(** ** The helpers of [_utils] *)

Definition Qnat (n : nat) : Q := inject_Z (Z.of_nat n).

(** Modelled from the spec: [scale] of [skbio/stats/ordination/_utils.py],
    which is not among the sources.  Every column is centred by its weighted
    mean and divided by its weighted standard deviation; the weights are over
    the rows and sum to 1; [ddof] adjusts the denominator of the variance;
    weights whose length is not the row count are an error. *)
Definition scale (np : Numpy) (a : ndarray) (weights : list Q) (ddof : nat)
  : res ndarray :=
  if negb (length weights =? nrows a)%nat then raise DimensionMismatch
  else
    let n := nrows a in
    let avg := fun j =>
      Qsum (map (fun i => nth i weights 0 * at2 a i j) (seq 0 n)) in
    let variance := fun j =>
      Qsum (map (fun i => nth i weights 0 * ((at2 a i j - avg j) * (at2 a i j - avg j)))
                (seq 0 n))
      * (Qnat n / Qnat (n - ddof)) in
    let std := fun j => np_sqrt np (variance j) in
    ret (mkArray n (ncols a) (fun i j => (at2 a i j - avg j) / std j)).

(** Modelled from the spec: [corr] of [skbio/stats/ordination/_utils.py],
    which is not among the sources.  The Pearson correlation between every
    column of [x] and every column of [y]: both tables are standardized
    column by column, and the products of the columns are averaged over the
    rows. *)
Definition corr (np : Numpy) (x y : ndarray) : res ndarray :=
  let uniform := fun n => repeat (1 / Qnat n) n in
  xs <- scale np x (uniform (nrows x)) 0 ;;
  ys <- scale np y (uniform (nrows y)) 0 ;;
  p <- dot (transpose xs) ys ;;
  ret (div_scalar p (Qnat (nrows x))).

(** Modelled from the spec: [svd_rank] of [skbio/stats/ordination/_utils.py],
    which is not among the sources.  The tolerance is the largest singular
    value scaled by the largest dimension and by the machine epsilon; the
    singular values at or below it are dropped, the others are counted. *)
Definition svd_rank (M_shape : nat * nat) (S : list Q) : nat :=
  let tol := fold_left Qmax S 0
             * Qnat (Nat.max (fst M_shape) (snd M_shape)) * eps in
  length (filter (fun x => Qlt_bool tol x) S).

(** ** The decomposition (lines 125-202) *)

Module Locals.
(** The local variables of [cca] the rest of the function reads. *)
Record t : Type := mk {
  row_marginals : list Q;
  column_marginals : list Q;
  Q_bar : ndarray;
  X_weighted : ndarray;
  Y_hat : ndarray;
  Y_res : ndarray;
  u : ndarray;
  s : list Q;
  U : ndarray;
  U_hat : ndarray;
  u_res : ndarray;
  s_res : list Q;
  U_res : ndarray;
  U_hat_res : ndarray;
  eigenvalues : list Q;
  V : ndarray;
  V_hat : ndarray;
  F : ndarray;
  F_hat : ndarray;
  Z_scaling1 : ndarray;
  Z_scaling2 : ndarray;
  V_res : ndarray;
  V_hat_res : ndarray;
  F_res : ndarray;
  F_hat_res : ndarray
}.
End Locals.

(** [Q_freq] is the [Q] of the source, the table of relative frequencies;
    [cm] and [rm] are its [column_marginals**-0.5] and [row_marginals**-0.5],
    which the source writes out at every use. *)
Definition decompose (np : Numpy) (Y X : ndarray) : res Locals.t :=
  (* Step 1 *)
  let grand_total := asum Y in
  let Q_freq := div_scalar Y grand_total in
  let column_marginals := sum_axis0 Q_freq in
  let row_marginals := sum_axis1 Q_freq in
  let expected := outer row_marginals column_marginals in
  d <- broadcast2 Qminus Q_freq expected ;;
  Q_bar <- broadcast2 Qdiv d (amap (np_sqrt np) expected) ;;
  (* Step 2 *)
  X <- scale np X row_marginals 0 ;;
  (* Step 3 *)
  X_weighted <-
    broadcast2 Qmult
      (col_vec (map (pow_half np) row_marginals)) X ;;
  let '(B, rank_lstsq) := linalg_lstsq np X_weighted Q_bar in
  Y_hat <- dot X_weighted B ;;
  Y_res <- broadcast2 Qminus Q_bar Y_hat ;;
  (* Step 4 *)
  let usv := linalg_svd np Y_hat in
  let rank := svd_rank (shape Y_hat) (svd_s usv) in
  let s := firstn rank (svd_s usv) in
  let u := take_cols rank (svd_u usv) in
  let vt := take_rows rank (svd_vt usv) in
  let U := transpose vt in
  (* Step 5 *)
  QU <- dot Q_bar U ;;
  U_hat <- broadcast2 Qmult QU (row_vec (map Qinv s)) ;;
  (* Residuals analysis *)
  let usv_res := linalg_svd np Y_res in
  let rank := svd_rank (shape Y_res) (svd_s usv_res) in
  let s_res := firstn rank (svd_s usv_res) in
  let u_res := take_cols rank (svd_u usv_res) in
  let vt_res := take_rows rank (svd_vt usv_res) in
  let U_res := transpose vt_res in
  YU_res <- dot Y_res U_res ;;
  U_hat_res <- broadcast2 Qmult YU_res (row_vec (map Qinv s_res)) ;;
  let eigenvalues := map (fun v => v * v) (s ++ s_res) in
  (* Scalings *)
  let cm := col_vec (map (pow_neg_half np) column_marginals) in
  let rm := col_vec (map (pow_neg_half np) row_marginals) in
  V <- broadcast2 Qmult cm U ;;
  V_hat <- broadcast2 Qmult rm U_hat ;;
  F <- broadcast2 Qmult V_hat (row_vec s) ;;
  F_hat <- broadcast2 Qmult V (row_vec s) ;;
  YU <- dot Y_hat U ;;
  Z_scaling1 <- broadcast2 Qmult rm YU ;;
  Z_scaling2 <- broadcast2 Qmult Z_scaling1 (row_vec (map Qinv s)) ;;
  V_res <- broadcast2 Qmult cm U_res ;;
  V_hat_res <- broadcast2 Qmult rm U_hat_res ;;
  F_res <- broadcast2 Qmult V_hat_res (row_vec s_res) ;;
  F_hat_res <- broadcast2 Qmult V_res (row_vec s_res) ;;
  ret (Locals.mk row_marginals column_marginals Q_bar X_weighted Y_hat Y_res
         u s U U_hat u_res s_res U_res U_hat_res eigenvalues
         V V_hat F F_hat Z_scaling1 Z_scaling2 V_res V_hat_res F_res F_hat_res).

(** ** The result (lines 204-226) *)

Record OrdinationResults : Type := mkOrdinationResults {
  short_method_name : string;
  long_method_name : string;
  eigvals : Series;
  samples : DataFrame;
  features : DataFrame;
  biplot_scores : DataFrame;
  sample_constraints : DataFrame;
  proportion_explained : Series
}.

(** [eigvals / eigvals.sum()] *)
Definition series_div_sum (sr : Series) : Series :=
  mkSeries (map (fun e => e / Qsum (sr_values sr)) (sr_values sr)) (sr_index sr).

(** The three tables the requested scaling selects. *)
Definition select_scores (scaling : Z) (L : Locals.t)
  : res (ndarray * ndarray * ndarray) :=
  if (scaling =? 1)%Z then
    species_scores <- hstack (Locals.V L) (Locals.V_res L) ;;
    site_scores <- hstack (Locals.F L) (Locals.F_res L) ;;
    site_constraints <- hstack (Locals.Z_scaling1 L) (Locals.F_res L) ;;
    ret (species_scores, site_scores, site_constraints)
  else if (scaling =? 2)%Z then
    species_scores <- hstack (Locals.F_hat L) (Locals.F_hat_res L) ;;
    site_scores <- hstack (Locals.V_hat L) (Locals.V_hat_res L) ;;
    site_constraints <- hstack (Locals.Z_scaling2 L) (Locals.V_hat_res L) ;;
    ret (species_scores, site_scores, site_constraints)
  else raise UnboundLocal.

(** The names [pd] and [feature] of the source are bound nowhere in the
    module, and line 220 writes [index[]]; they are read as pandas, as the
    local [features] and as [index=[]]. *)
Definition assemble (np : Numpy) (scaling : Z) (L : Locals.t)
  : res OrdinationResults :=
  scores <- select_scores scaling L ;;
  let '(species_scores, site_scores, site_constraints) := scores in
  biplot_scores <- corr np (Locals.X_weighted L) (Locals.u L) ;;
  let eigvals := mkSeries (Locals.eigenvalues L) [] in
  let samples := mkDataFrame site_scores [] [] in
  let features := mkDataFrame species_scores [] [] in
  let biplot_scores := mkDataFrame biplot_scores [] [] in
  let sample_constraints := mkDataFrame site_constraints [] [] in
  ret (mkOrdinationResults "CCA" "Canonical Correspondence Analysis"
         eigvals samples features biplot_scores sample_constraints
         (series_div_sum eigvals)).

Definition cca (np : Numpy) (y x : DataFrame) (scaling : Z)
  : res OrdinationResults :=
  let Y := as_matrix y in
  let X := as_matrix x in
  _ <- validate Y X scaling ;;
  L <- decompose np Y X ;;
  assemble np scaling L.

(** ** The conditions the validation looks for *)

Definition has_negative (Y : ndarray) : Prop :=
  exists i j, (i < nrows Y)%nat /\ (j < ncols Y)%nat /\ at2 Y i j < 0.

(** A row whose largest entry is not positive. *)
Definition has_degenerate_row (Y : ndarray) : Prop :=
  exists i, (i < nrows Y)%nat /\ (0 < ncols Y)%nat /\
            forall j, (j < ncols Y)%nat -> at2 Y i j <= 0.

Definition rejected (Y X : ndarray) (scaling : Z) : Prop :=
  nrows X <> nrows Y \/ has_negative Y \/ has_degenerate_row Y \/
  (scaling <> 1 /\ scaling <> 2)%Z.

(** The outcome of the validation, check by check in the order of the
    source. *)
Inductive validation_outcome (Y X : ndarray) (scaling : Z) : res unit -> Prop :=
| vo_rows :
    nrows X <> nrows Y ->
    validation_outcome Y X scaling (inl (RowCountMismatch (nrows X) (nrows Y)))
| vo_empty :
    nrows X = nrows Y -> entries Y = [] ->
    validation_outcome Y X scaling (inl ZeroSizeReduction)
| vo_negative :
    nrows X = nrows Y -> has_negative Y ->
    validation_outcome Y X scaling (inl NegativeAbundance)
| vo_degenerate :
    nrows X = nrows Y -> entries Y <> [] -> ~ has_negative Y ->
    has_degenerate_row Y ->
    validation_outcome Y X scaling (inl DegenerateSampleRow)
| vo_scaling :
    nrows X = nrows Y -> entries Y <> [] -> ~ has_negative Y ->
    ~ has_degenerate_row Y -> (scaling <> 1 /\ scaling <> 2)%Z ->
    validation_outcome Y X scaling (inl (UnsupportedScaling scaling))
| vo_accept :
    nrows X = nrows Y -> entries Y <> [] -> ~ has_negative Y ->
    ~ has_degenerate_row Y -> (scaling = 1 \/ scaling = 2)%Z ->
    validation_outcome Y X scaling (inr tt).

(** ** A reference instance of numpy *)

(** The square root to 52 binary digits after the point; exact on the
    squares of rationals. *)
Definition Qsqrt (x : Q) : Q :=
  let x := Qred x in
  Qred (Z.sqrt (Qnum x * Zpos (Qden x) * 4 ^ 52) # (Qden x * 2 ^ 52)).

Definition is_zero (M : ndarray) : bool :=
  forallb (fun v => Qeq_bool v 0) (entries M).

Definition zeros (n m : nat) : ndarray := mkArray n m (fun _ _ => 0).
Definition eye (n m : nat) : ndarray :=
  mkArray n m (fun i j => if (i =? j)%nat then 1 else 0).

(** Least squares with a single regressor: [B = a^T b / a^T a], and the
    minimum-norm solution 0 when [a] vanishes.  For other designs the
    instance answers 0, which is the solution when [b] vanishes. *)
Definition ref_lstsq (a b : ndarray) : ndarray * nat :=
  let aa := Qsum (map (fun i => at2 a i 0 * at2 a i 0) (seq 0 (nrows a))) in
  if ((ncols a =? 1)%nat && negb (Qeq_bool aa 0))%bool then
    (mkArray 1 (ncols b) (fun _ j =>
       Qred (Qsum (map (fun i => at2 a i 0 * at2 b i j) (seq 0 (nrows a))) / aa)),
     1%nat)
  else (zeros (ncols a) (ncols b), 0%nat).

(** Two orthogonal 4x4 bases, the columns of the first and the rows of the
    second of length 1. *)
Definition hadamard_u : ndarray :=
  of_rows 4 4 [[1#2; 1#2; 1#2; 1#2]; [1#2; 1#2; -(1#2); -(1#2)];
               [-(1#2); 1#2; 1#2; -(1#2)]; [-(1#2); 1#2; -(1#2); 1#2]].
Definition hadamard_vt : ndarray :=
  of_rows 4 4 [[1#2; -(1#2); 1#2; -(1#2)]; [1#2; 1#2; 1#2; 1#2];
               [1#2; 1#2; -(1#2); -(1#2)]; [1#2; -(1#2); -(1#2); 1#2]].

(** The decomposition of an all-zero table, and of the 4x4 tables
    [c * a b^T] with [a = (1,1,-1,-1)/2] and [b = (1,-1,1,-1)/2], whose only
    non-zero singular value is [c]; other tables are answered as if they
    were zero. *)
Definition ref_svd (M : ndarray) : SVD :=
  let k := Nat.min (nrows M) (ncols M) in
  if (negb (is_zero M) && (nrows M =? 4)%nat && (ncols M =? 4)%nat)%bool then
    mkSVD hadamard_u [Qred (4 * Qabs (at2 M 0 0)); 0; 0; 0] hadamard_vt
  else mkSVD (eye (nrows M) k) (repeat 0 k) (eye k (ncols M)).

Definition ref_numpy : Numpy :=
  mkNumpy Qsqrt Qsqrt (fun x => / Qsqrt x) ref_lstsq ref_svd.

(** ** Example tables *)

Definition table (n m : nat) (l : list (list Q)) (index columns : list string)
  : DataFrame :=
  mkDataFrame (of_rows n m l) index columns.

(** A table with no sample and no feature. *)
Definition y_empty : DataFrame := table 0 0 [] [] [].
Definition x_empty : DataFrame := table 0 1 [] [] ["pH"%string].

(** Four samples, four features, one constraint. *)
Definition y_four : DataFrame :=
  table 4 4 [[3; 1; 3; 1]; [3; 1; 3; 1]; [1; 3; 1; 3]; [1; 3; 1; 3]]
    ["s1"; "s2"; "s3"; "s4"]%string ["f1"; "f2"; "f3"; "f4"]%string.
Definition x_four : DataFrame :=
  table 4 1 [[1]; [1]; [-1]; [-1]]
    ["s1"; "s2"; "s3"; "s4"]%string ["pH"%string].

(** Two samples with the same abundances: nothing to explain. *)
Definition y_flat : DataFrame :=
  table 2 2 [[1; 1]; [1; 1]] ["s1"; "s2"]%string ["f1"; "f2"]%string.
Definition x_flat : DataFrame :=
  table 2 1 [[0]; [2]] ["s1"; "s2"]%string ["pH"%string].

(** A sample with no abundance at all. *)
Definition y_zero_row : DataFrame :=
  table 2 2 [[1; 2]; [0; 0]] ["s1"; "s2"]%string ["f1"; "f2"]%string.

(** The rows of a table, every entry in lowest terms. *)
Definition reduced (A : ndarray) : list (list Q) := map (map Qred) (to_rows A).

(** A negative abundance. *)
Definition y_negative : DataFrame :=
  table 2 2 [[1; -1]; [0; 0]] ["s1"; "s2"]%string ["f1"; "f2"]%string.

(** ** The decomposition, step by step *)

(** The effective ranks of the fitted and of the residual table, as line 152
    and line 163 compute them. *)
Definition fitted_rank (np : Numpy) (L : Locals.t) : nat :=
  svd_rank (shape (Locals.Y_hat L)) (svd_s (linalg_svd np (Locals.Y_hat L))).
Definition residual_rank (np : Numpy) (L : Locals.t) : nat :=
  svd_rank (shape (Locals.Y_res L)) (svd_s (linalg_svd np (Locals.Y_res L))).

(** How the locals of a run that reached line 202 depend on each other. *)
Record decomposed (np : Numpy) (Y X : ndarray) (L : Locals.t) : Prop := mkDecomposed {
  dec_row_marginals :
    Locals.row_marginals L = sum_axis1 (div_scalar Y (asum Y));
  dec_column_marginals :
    Locals.column_marginals L = sum_axis0 (div_scalar Y (asum Y));
  dec_Q_bar : exists d,
    broadcast2 Qminus (div_scalar Y (asum Y))
      (outer (Locals.row_marginals L) (Locals.column_marginals L)) = inr d /\
    broadcast2 Qdiv d
      (amap (np_sqrt np)
         (outer (Locals.row_marginals L) (Locals.column_marginals L)))
    = inr (Locals.Q_bar L);
  dec_X_weighted : exists Xs,
    scale np X (Locals.row_marginals L) 0 = inr Xs /\
    broadcast2 Qmult (col_vec (map (pow_half np) (Locals.row_marginals L))) Xs
    = inr (Locals.X_weighted L);
  dec_Y_hat :
    dot (Locals.X_weighted L)
        (fst (linalg_lstsq np (Locals.X_weighted L) (Locals.Q_bar L)))
    = inr (Locals.Y_hat L);
  dec_Y_res :
    broadcast2 Qminus (Locals.Q_bar L) (Locals.Y_hat L) = inr (Locals.Y_res L);
  dec_s :
    Locals.s L = firstn (fitted_rank np L) (svd_s (linalg_svd np (Locals.Y_hat L)));
  dec_u :
    Locals.u L = take_cols (fitted_rank np L) (svd_u (linalg_svd np (Locals.Y_hat L)));
  dec_U :
    Locals.U L =
    transpose (take_rows (fitted_rank np L) (svd_vt (linalg_svd np (Locals.Y_hat L))));
  dec_U_hat : exists QU,
    dot (Locals.Q_bar L) (Locals.U L) = inr QU /\
    broadcast2 Qmult QU (row_vec (map Qinv (Locals.s L))) = inr (Locals.U_hat L);
  dec_s_res :
    Locals.s_res L =
    firstn (residual_rank np L) (svd_s (linalg_svd np (Locals.Y_res L)));
  dec_u_res :
    Locals.u_res L =
    take_cols (residual_rank np L) (svd_u (linalg_svd np (Locals.Y_res L)));
  dec_U_res :
    Locals.U_res L =
    transpose (take_rows (residual_rank np L) (svd_vt (linalg_svd np (Locals.Y_res L))));
  dec_U_hat_res : exists YU_res,
    dot (Locals.Y_res L) (Locals.U_res L) = inr YU_res /\
    broadcast2 Qmult YU_res (row_vec (map Qinv (Locals.s_res L)))
    = inr (Locals.U_hat_res L);
  dec_eigenvalues :
    Locals.eigenvalues L = map (fun v => v * v) (Locals.s L ++ Locals.s_res L);
  dec_V :
    broadcast2 Qmult
      (col_vec (map (pow_neg_half np) (Locals.column_marginals L))) (Locals.U L)
    = inr (Locals.V L);
  dec_V_hat :
    broadcast2 Qmult
      (col_vec (map (pow_neg_half np) (Locals.row_marginals L))) (Locals.U_hat L)
    = inr (Locals.V_hat L);
  dec_F :
    broadcast2 Qmult (Locals.V_hat L) (row_vec (Locals.s L)) = inr (Locals.F L);
  dec_F_hat :
    broadcast2 Qmult (Locals.V L) (row_vec (Locals.s L)) = inr (Locals.F_hat L);
  dec_Z_scaling1 : exists YU,
    dot (Locals.Y_hat L) (Locals.U L) = inr YU /\
    broadcast2 Qmult
      (col_vec (map (pow_neg_half np) (Locals.row_marginals L))) YU
    = inr (Locals.Z_scaling1 L);
  dec_Z_scaling2 :
    broadcast2 Qmult (Locals.Z_scaling1 L) (row_vec (map Qinv (Locals.s L)))
    = inr (Locals.Z_scaling2 L);
  dec_V_res :
    broadcast2 Qmult
      (col_vec (map (pow_neg_half np) (Locals.column_marginals L))) (Locals.U_res L)
    = inr (Locals.V_res L);
  dec_V_hat_res :
    broadcast2 Qmult
      (col_vec (map (pow_neg_half np) (Locals.row_marginals L))) (Locals.U_hat_res L)
    = inr (Locals.V_hat_res L);
  dec_F_res :
    broadcast2 Qmult (Locals.V_hat_res L) (row_vec (Locals.s_res L))
    = inr (Locals.F_res L);
  dec_F_hat_res :
    broadcast2 Qmult (Locals.V_res L) (row_vec (Locals.s_res L))
    = inr (Locals.F_hat_res L)
}.

(** ** What an accepted table looks like *)

Definition nonnegative (Y : ndarray) : Prop :=
  forall i j, (i < nrows Y)%nat -> (j < ncols Y)%nat -> 0 <= at2 Y i j.

(** Every sample has an abundance that is positive. *)
Definition every_row_positive (Y : ndarray) : Prop :=
  forall i, (i < nrows Y)%nat -> exists j, (j < ncols Y)%nat /\ 0 < at2 Y i j.

(** Four samples and no constraint at all. *)
Definition x_no_constraint : DataFrame :=
  table 4 0 [[]; []; []; []] ["s1"; "s2"; "s3"; "s4"]%string [].

(** * Properties *)

(** ** The monad *)

Lemma bind_ret {A B : Type} (a : A) (k : A -> res B) : bind (ret a) k = k a.
Proof. reflexivity. Qed.

Lemma bind_inr {A B : Type} (m : res A) (k : A -> res B) (b : B) :
  bind m k = inr b -> exists a, m = inr a /\ k a = inr b.
Proof. destruct m as [e | a]; simpl; [discriminate | eauto]. Qed.

Lemma bind_inl {A B : Type} (m : res A) (k : A -> res B) (e : Error) :
  m = inl e -> bind m k = inl e.
Proof. intros ->. reflexivity. Qed.

(** ** Comparisons and reductions *)

Lemma Qlt_bool_iff (a b : Q) : Qlt_bool a b = true <-> a < b.
Proof.
  unfold Qlt_bool. rewrite negb_true_iff. split; intro H.
  - apply Qnot_le_lt. intro Hle. apply Qle_bool_iff in Hle. congruence.
  - destruct (Qle_bool b a) eqn:E; [| reflexivity].
    apply Qle_bool_iff in E. exfalso. apply (Qlt_not_le _ _ H E).
Qed.

Lemma fold_Qmin_lt (l : list Q) (x c : Q) :
  fold_left Qmin l x < c <-> x < c \/ exists y, In y l /\ y < c.
Proof.
  revert x. induction l as [| a l IH]; intro x; simpl.
  - split; [auto | intros [H | (y & [] & _)]; exact H].
  - rewrite IH, Q.min_lt_iff. split.
    + intros [[H | H] | (y & Hy & H)]; eauto.
    + intros [H | (y & [<- | Hy] & H)]; eauto.
Qed.

Lemma fold_Qmax_le (l : list Q) (x c : Q) :
  fold_left Qmax l x <= c <-> x <= c /\ forall y, In y l -> y <= c.
Proof.
  revert x. induction l as [| a l IH]; intro x; simpl.
  - split; [intro H; split; [exact H | intros y []] | intros [H _]; exact H].
  - rewrite IH, Q.max_lub_iff. split.
    + intros [[Hx Ha] Hl]. split; [exact Hx |].
      intros y [<- | Hy]; auto.
    + intros [Hx Hl]. repeat split; auto.
Qed.

Lemma lmin_lt (l : list Q) (v c : Q) :
  lmin l = inr v -> (v < c <-> exists y, In y l /\ y < c).
Proof.
  destruct l as [| x l]; simpl; [discriminate |].
  intros [= <-]. rewrite fold_Qmin_lt. split.
  - intros [H | (y & Hy & H)]; eauto.
  - intros (y & [<- | Hy] & H); eauto.
Qed.

Lemma lmax_le (l : list Q) (v c : Q) :
  lmax l = inr v -> (v <= c <-> forall y, In y l -> y <= c).
Proof.
  destruct l as [| x l]; simpl; [discriminate |].
  intros [= <-]. rewrite fold_Qmax_le. split.
  - intros [Hx Hl] y [<- | Hy]; auto.
  - intro H. split; auto.
Qed.

Lemma lmin_returns (l : list Q) : l <> [] -> returns (lmin l).
Proof. destruct l; [congruence | intros _; eexists; reflexivity]. Qed.

Lemma lmax_returns (l : list Q) : l <> [] -> returns (lmax l).
Proof. destruct l; [congruence | intros _; eexists; reflexivity]. Qed.

(** ** Entries of an array *)

Lemma in_row (A : ndarray) (i : nat) (z : Q) :
  In z (row A i) <-> exists j, (j < ncols A)%nat /\ z = at2 A i j.
Proof.
  unfold row. rewrite in_map_iff. split.
  - intros (j & <- & Hj). apply in_seq in Hj. exists j. split; [lia | reflexivity].
  - intros (j & Hj & ->). exists j. split; [reflexivity | apply in_seq; lia].
Qed.

Lemma in_entries (A : ndarray) (z : Q) :
  In z (entries A) <->
  exists i j, (i < nrows A)%nat /\ (j < ncols A)%nat /\ z = at2 A i j.
Proof.
  unfold entries. rewrite in_flat_map. split.
  - intros (i & Hi & Hz). apply in_seq in Hi. apply in_row in Hz.
    destruct Hz as (j & Hj & ->). exists i, j. repeat split; [lia | exact Hj].
  - intros (i & j & Hi & Hj & ->). exists i. split; [apply in_seq; lia |].
    apply in_row. eauto.
Qed.

Lemma row_nonempty (A : ndarray) (i : nat) : (0 < ncols A)%nat -> row A i <> [].
Proof.
  unfold row. destruct (ncols A); [lia |]. simpl. discriminate.
Qed.

Lemma entries_nonempty (A : ndarray) :
  (0 < nrows A)%nat -> (0 < ncols A)%nat -> entries A <> [].
Proof.
  intros Hn Hm He.
  assert (Hin : In (at2 A 0 0) (entries A)).
  { apply in_entries. exists 0%nat, 0%nat. auto. }
  rewrite He in Hin. exact Hin.
Qed.

Lemma entries_empty (A : ndarray) :
  entries A = [] -> nrows A = 0%nat \/ ncols A = 0%nat.
Proof.
  intro He. destruct (nrows A) eqn:En; [auto |]. destruct (ncols A) eqn:Em; [auto |].
  exfalso. apply (entries_nonempty A); [lia | lia | exact He].
Qed.

(** ** [mapM] *)

Lemma mapM_returns {A B : Type} (f : A -> res B) (l : list A) :
  (forall a, In a l -> returns (f a)) -> returns (mapM f l).
Proof.
  induction l as [| a l IH]; intro H; simpl.
  - eexists; reflexivity.
  - destruct (H a (or_introl eq_refl)) as (b & Hb). rewrite Hb. simpl.
    destruct IH as (bs & Hbs); [intros; apply H; right; assumption |].
    rewrite Hbs. eexists; reflexivity.
Qed.

Lemma mapM_inr {A B : Type} (f : A -> res B) (l : list A) (bs : list B) :
  mapM f l = inr bs ->
  forall b, In b bs <-> exists a, In a l /\ f a = inr b.
Proof.
  revert bs. induction l as [| a l IH]; intros bs H b; simpl in H.
  - injection H as <-. split; [intros [] | intros (a & [] & _)].
  - apply bind_inr in H. destruct H as (b0 & Hb0 & H).
    apply bind_inr in H. destruct H as (bs0 & Hbs0 & H).
    injection H as <-. simpl. rewrite (IH _ Hbs0). split.
    + intros [<- | (a' & Ha' & Hf)]; [exists a | exists a']; auto.
    + intros (a' & [<- | Ha'] & Hf); [left; congruence | right; eauto].
Qed.

Lemma amax_axis1_returns (Y : ndarray) :
  (0 < ncols Y)%nat -> returns (amax_axis1 Y).
Proof.
  intro Hm. apply mapM_returns. intros i _.
  apply lmax_returns, row_nonempty, Hm.
Qed.

Lemma amax_axis1_le (Y : ndarray) (row_max : list Q) :
  amax_axis1 Y = inr row_max ->
  (existsb (fun v => Qle_bool v 0) row_max = true <-> has_degenerate_row Y).
Proof.
  intro H. rewrite existsb_exists. split.
  - intros (v & Hv & Hle). apply Qle_bool_iff in Hle.
    apply (mapM_inr _ _ _ H) in Hv. destruct Hv as (i & Hi & Hmax).
    apply in_seq in Hi. exists i. split; [lia |].
    assert (Hm : (0 < ncols Y)%nat).
    { destruct (ncols Y) eqn:E; [| lia]. unfold row in Hmax. rewrite E in Hmax.
      discriminate. }
    split; [exact Hm |]. intros j Hj.
    apply (proj1 (lmax_le _ _ 0 Hmax) Hle). apply in_row. eauto.
  - intros (i & Hi & Hm & Hrow).
    destruct (lmax_returns (row Y i) (row_nonempty Y i Hm)) as (v & Hv).
    exists v. split.
    + apply (mapM_inr _ _ _ H). exists i. split; [apply in_seq; lia | exact Hv].
    + apply Qle_bool_iff. apply (lmax_le _ _ 0 Hv).
      intros y Hy. apply in_row in Hy. destruct Hy as (j & Hj & ->). auto.
Qed.

Lemma amin_lt (Y : ndarray) (Ymin : Q) :
  amin Y = inr Ymin -> (Qlt_bool Ymin 0 = true <-> has_negative Y).
Proof.
  intro H. rewrite Qlt_bool_iff, (lmin_lt _ _ 0 H). split.
  - intros (y & Hy & Hlt). apply in_entries in Hy.
    destruct Hy as (i & j & Hi & Hj & ->). exists i, j. auto.
  - intros (i & j & Hi & Hj & Hlt). exists (at2 Y i j). split; [| exact Hlt].
    apply in_entries. eauto.
Qed.

Lemma scaling_supported_iff (scaling : Z) :
  scaling_supported scaling = true <-> (scaling = 1 \/ scaling = 2)%Z.
Proof. unfold scaling_supported. rewrite orb_true_iff, !Z.eqb_eq. reflexivity. Qed.

(** ** The validation, case by case *)

Lemma validate_outcome (Y X : ndarray) (scaling : Z) :
  validation_outcome Y X scaling (validate Y X scaling).
Proof.
  unfold validate.
  destruct (nrows X =? nrows Y)%nat eqn:Erows; simpl.
  2: { apply vo_rows. apply Nat.eqb_neq, Erows. }
  apply Nat.eqb_eq in Erows.
  destruct (amin Y) as [e | Ymin] eqn:Emin; simpl.
  { unfold amin in Emin. destruct (entries Y) eqn:Ee; simpl in Emin.
    - injection Emin as <-. apply vo_empty; assumption.
    - discriminate. }
  assert (Hne : entries Y <> []).
  { unfold amin in Emin. destruct (entries Y); [discriminate | discriminate]. }
  pose proof (amin_lt Y Ymin Emin) as Hneg.
  destruct (Qlt_bool Ymin 0) eqn:Elt.
  { apply vo_negative; [assumption | apply Hneg; reflexivity]. }
  assert (Hnn : ~ has_negative Y).
  { intro H. apply Hneg in H. discriminate. }
  assert (Hm : (0 < ncols Y)%nat).
  { destruct (ncols Y) eqn:Em; [| lia]. exfalso. apply Hne.
    unfold entries, row. rewrite Em. simpl.
    induction (seq 0 (nrows Y)); simpl; auto. }
  destruct (amax_axis1_returns Y Hm) as (row_max & Emax). rewrite Emax. simpl.
  pose proof (amax_axis1_le Y row_max Emax) as Hdeg.
  destruct (existsb _ row_max) eqn:Eex.
  { apply vo_degenerate; try assumption. apply Hdeg; reflexivity. }
  assert (Hnd : ~ has_degenerate_row Y).
  { intro H. apply Hdeg in H. discriminate. }
  destruct (scaling_supported scaling) eqn:Esc; simpl.
  - apply vo_accept; try assumption. apply scaling_supported_iff, Esc.
  - apply vo_scaling; try assumption.
    split; intro H; subst scaling; discriminate.
Qed.

Lemma has_negative_nonempty (Y : ndarray) : has_negative Y -> entries Y <> [].
Proof.
  intros (i & j & Hi & Hj & _). apply entries_nonempty; lia.
Qed.

Lemma has_degenerate_row_nonempty (Y : ndarray) :
  has_degenerate_row Y -> entries Y <> [].
Proof.
  intros (i & Hi & Hm & _). apply entries_nonempty; lia.
Qed.

(** What the validation accepts. *)
Lemma validate_accepts (Y X : ndarray) (scaling : Z) :
  validate Y X scaling = inr tt ->
  nrows X = nrows Y /\ (0 < nrows Y)%nat /\ (0 < ncols Y)%nat /\
  (scaling = 1 \/ scaling = 2)%Z.
Proof.
  intro H. pose proof (validate_outcome Y X scaling) as Ho. rewrite H in Ho.
  inversion Ho as [ | | | | | Hr Hne _ _ Hs ].
  repeat split; try assumption.
  - destruct (nrows Y) eqn:E; [| lia]. exfalso. apply Hne.
    unfold entries. rewrite E. reflexivity.
  - destruct (ncols Y) eqn:E; [| lia]. exfalso. apply Hne.
    unfold entries, row. rewrite E. simpl.
    induction (seq 0 (nrows Y)); simpl; auto.
Qed.

(** The validation reads the row count of [X] and nothing else of it. *)
Lemma validate_ignores_constraints (Y X X' : ndarray) (scaling : Z) :
  nrows X = nrows X' -> validate Y X scaling = validate Y X' scaling.
Proof. unfold validate. intros ->. reflexivity. Qed.

Lemma cca_validation_error (np : Numpy) (y x : DataFrame) (scaling : Z) (e : Error) :
  validate (as_matrix y) (as_matrix x) scaling = inl e ->
  cca np y x scaling = inl e.
Proof. intro H. unfold cca. rewrite H. reflexivity. Qed.

(** ** Shapes of the array operations *)

Lemma bdim_same (n : nat) : bdim n n = inr n.
Proof. unfold bdim. rewrite Nat.eqb_refl. reflexivity. Qed.

Lemma bdim_one_l (n : nat) : bdim 1 n = inr n.
Proof.
  unfold bdim. destruct (1 =? n)%nat eqn:E.
  - apply Nat.eqb_eq in E. subst n. reflexivity.
  - reflexivity.
Qed.

Lemma bdim_one_r (n : nat) : bdim n 1 = inr n.
Proof.
  unfold bdim. destruct (n =? 1)%nat eqn:E; reflexivity.
Qed.

Lemma bdim_inr (a b n : nat) :
  bdim a b = inr n -> (a = n /\ (b = n \/ b = 1%nat)) \/ (a = 1%nat /\ b = n).
Proof.
  unfold bdim.
  destruct (a =? b)%nat eqn:E1.
  { apply Nat.eqb_eq in E1. intros [= <-]. left. auto. }
  destruct (a =? 1)%nat eqn:E2.
  { apply Nat.eqb_eq in E2. intros [= <-]. right. auto. }
  destruct (b =? 1)%nat eqn:E3; [| discriminate].
  apply Nat.eqb_eq in E3. intros [= <-]. left. auto.
Qed.

Lemma bidx_lt (d i : nat) : (i < d)%nat -> bidx d i = i.
Proof.
  unfold bidx. destruct (d =? 1)%nat eqn:E; [| reflexivity].
  apply Nat.eqb_eq in E. lia.
Qed.

Lemma bidx_one (i : nat) : bidx 1 i = 0%nat.
Proof. reflexivity. Qed.

Lemma broadcast2_returns (f : Q -> Q -> Q) (A B : ndarray) (n m : nat) :
  bdim (nrows A) (nrows B) = inr n -> bdim (ncols A) (ncols B) = inr m ->
  exists C, broadcast2 f A B = inr C /\ nrows C = n /\ ncols C = m.
Proof.
  intros Hn Hm. unfold broadcast2. rewrite Hn, Hm. simpl.
  eexists. split; [reflexivity | split; reflexivity].
Qed.

Lemma broadcast2_inr (f : Q -> Q -> Q) (A B C : ndarray) :
  broadcast2 f A B = inr C ->
  bdim (nrows A) (nrows B) = inr (nrows C) /\
  bdim (ncols A) (ncols B) = inr (ncols C) /\
  forall i j, at2 C i j =
    f (at2 A (bidx (nrows A) i) (bidx (ncols A) j))
      (at2 B (bidx (nrows B) i) (bidx (ncols B) j)).
Proof.
  unfold broadcast2. intro H.
  apply bind_inr in H. destruct H as (n & Hn & H).
  apply bind_inr in H. destruct H as (m & Hm & H).
  injection H as <-. simpl. auto.
Qed.

(** A table times a column of row weights, [w[:, None] * A]. *)
Lemma col_vec_mul_inr (w : list Q) (A C : ndarray) :
  broadcast2 Qmult (col_vec w) A = inr C -> length w = nrows A ->
  nrows C = nrows A /\ ncols C = ncols A /\
  forall i j, (i < nrows A)%nat -> (j < ncols A)%nat ->
    at2 C i j = nth i w 0 * at2 A i j.
Proof.
  intros H Hw. apply broadcast2_inr in H. simpl in H.
  destruct H as (Hn & Hm & Hat).
  rewrite Hw, bdim_same in Hn. rewrite bdim_one_l in Hm.
  injection Hn as Hn. injection Hm as Hm.
  repeat split; auto.
  intros i j Hi Hj. rewrite Hat, Hw, !bidx_lt by assumption. reflexivity.
Qed.

(** A table times a row of column weights, [A * v]. *)
Lemma row_vec_mul_inr (v : list Q) (A C : ndarray) :
  broadcast2 Qmult A (row_vec v) = inr C -> length v = ncols A ->
  nrows C = nrows A /\ ncols C = ncols A /\
  forall i j, (i < nrows A)%nat -> (j < ncols A)%nat ->
    at2 C i j = at2 A i j * nth j v 0.
Proof.
  intros H Hv. apply broadcast2_inr in H. simpl in H.
  destruct H as (Hn & Hm & Hat).
  rewrite Hv, bdim_same in Hm. rewrite bdim_one_r in Hn.
  injection Hn as Hn. injection Hm as Hm.
  repeat split; auto.
  intros i j Hi Hj. rewrite Hat, Hv, !bidx_lt by assumption. reflexivity.
Qed.

Lemma dot_returns (A B : ndarray) :
  ncols A = nrows B ->
  exists C, dot A B = inr C /\ nrows C = nrows A /\ ncols C = ncols B.
Proof.
  intro H. unfold dot. rewrite H, Nat.eqb_refl.
  eexists. split; [reflexivity | split; reflexivity].
Qed.

Lemma dot_inr (A B C : ndarray) :
  dot A B = inr C ->
  ncols A = nrows B /\ nrows C = nrows A /\ ncols C = ncols B.
Proof.
  unfold dot. destruct (ncols A =? nrows B)%nat eqn:E; [| discriminate].
  apply Nat.eqb_eq in E. intros [= <-]. simpl. auto.
Qed.

Lemma hstack_returns (A B : ndarray) :
  nrows A = nrows B -> returns (hstack A B).
Proof.
  intro H. unfold hstack. rewrite H, Nat.eqb_refl. eexists; reflexivity.
Qed.

Lemma hstack_inr (A B C : ndarray) :
  hstack A B = inr C ->
  nrows A = nrows B /\ nrows C = nrows A /\ ncols C = (ncols A + ncols B)%nat /\
  forall i j, at2 C i j =
    if (j <? ncols A)%nat then at2 A i j else at2 B i (j - ncols A).
Proof.
  unfold hstack. destruct (nrows A =? nrows B)%nat eqn:E; [| discriminate].
  apply Nat.eqb_eq in E. intros [= <-]. simpl. auto.
Qed.

Lemma scale_returns (np : Numpy) (a : ndarray) (w : list Q) (ddof : nat) :
  length w = nrows a ->
  exists c, scale np a w ddof = inr c /\ nrows c = nrows a /\ ncols c = ncols a.
Proof.
  intro H. unfold scale. rewrite H, Nat.eqb_refl. simpl.
  eexists. split; [reflexivity | split; reflexivity].
Qed.

Lemma scale_inr (np : Numpy) (a c : ndarray) (w : list Q) (ddof : nat) :
  scale np a w ddof = inr c ->
  length w = nrows a /\ nrows c = nrows a /\ ncols c = ncols a.
Proof.
  unfold scale. destruct (length w =? nrows a)%nat eqn:E; simpl; [| discriminate].
  apply Nat.eqb_eq in E. intros [= <-]. simpl. auto.
Qed.

Lemma corr_returns (np : Numpy) (x y : ndarray) :
  nrows x = nrows y ->
  exists c, corr np x y = inr c /\ nrows c = ncols x /\ ncols c = ncols y.
Proof.
  intro H. unfold corr.
  destruct (scale_returns np x (repeat (1 / Qnat (nrows x)) (nrows x)) 0)
    as (xs & -> & Hxn & Hxm); [apply repeat_length |].
  destruct (scale_returns np y (repeat (1 / Qnat (nrows y)) (nrows y)) 0)
    as (ys & -> & Hyn & Hym); [apply repeat_length |].
  simpl.
  destruct (dot_returns (transpose xs) ys) as (p & -> & Hpn & Hpm).
  { simpl. congruence. }
  simpl. eexists. split; [reflexivity |]. simpl in *. split; congruence.
Qed.

Lemma sum_axis0_length (A : ndarray) : length (sum_axis0 A) = ncols A.
Proof. unfold sum_axis0. rewrite length_map, length_seq. reflexivity. Qed.

Lemma sum_axis1_length (A : ndarray) : length (sum_axis1 A) = nrows A.
Proof. unfold sum_axis1. rewrite length_map, length_seq. reflexivity. Qed.

(** ** The decomposition returns *)

Lemma bdim_eq (a b : nat) : a = b -> bdim a b = inr a.
Proof. intros <-. apply bdim_same. Qed.

Ltac shapes :=
  simpl;
  rewrite ?length_map, ?length_firstn, ?sum_axis0_length, ?sum_axis1_length,
    ?length_seq;
  simpl; try lia.

Ltac run_broadcast C :=
  match goal with
  | |- context [bind (broadcast2 ?f ?A ?B) _] =>
      let E := fresh "E" C in
      let Hn := fresh "Hn" C in
      let Hm := fresh "Hm" C in
      edestruct (broadcast2_returns f A B) as (C & E & Hn & Hm);
      [ | | rewrite E; cbn [bind] ]
  end.

Ltac run_dot C :=
  match goal with
  | |- context [bind (dot ?A ?B) _] =>
      let E := fresh "E" C in
      let Hn := fresh "Hn" C in
      let Hm := fresh "Hm" C in
      destruct (dot_returns A B) as (C & E & Hn & Hm);
      [ | rewrite E; cbn [bind] ]
  end.

Section Decomposition.
Variable np : Numpy.
Hypothesis Hnp : linalg_ok np.
Variables Y X : ndarray.
Hypothesis Hrows : nrows X = nrows Y.

Lemma decompose_returns : returns (decompose np Y X).
Proof.
  unfold decompose.
  run_broadcast d; [apply bdim_eq; shapes | apply bdim_eq; shapes |].
  simpl in Hnd, Hmd.
  run_broadcast Q_bar; [apply bdim_eq; shapes | apply bdim_eq; shapes |].
  simpl in HnQ_bar, HmQ_bar.
  destruct (scale_returns np X (sum_axis1 (div_scalar Y (asum Y))) 0)
    as (Xs & -> & HnXs & HmXs); [shapes |]. cbn [bind].
  run_broadcast X_weighted; [apply bdim_eq; shapes | apply bdim_one_l |].
  simpl in HnX_weighted.
  rewrite length_map, sum_axis1_length in HnX_weighted. simpl in HnX_weighted.
  pose proof (lstsq_shape np Hnp X_weighted Q_bar) as HB.
  destruct (linalg_lstsq np X_weighted Q_bar) as [B rank_lstsq].
  simpl in HB. destruct HB as [HnB HmB]; [lia |].
  run_dot Y_hat; [lia |].
  run_broadcast Y_res; [apply bdim_eq; lia | apply bdim_eq; lia |].
  destruct (svd_shape np Hnp Y_hat) as (_ & _ & Hs & Hnvt & Hmvt).
  destruct (svd_shape np Hnp Y_res) as (_ & _ & Hs' & Hnvt' & Hmvt').
  run_dot QU; [shapes |]. simpl in HmQU.
  run_broadcast U_hat; [apply bdim_one_r | apply bdim_eq; shapes |].
  run_dot YU_res; [shapes |]. simpl in HmYU_res.
  run_broadcast U_hat_res; [apply bdim_one_r | apply bdim_eq; shapes |].
  run_broadcast V; [apply bdim_eq; shapes | apply bdim_one_l |].
  run_broadcast V_hat; [apply bdim_eq; shapes | apply bdim_one_l |].
  run_broadcast F; [apply bdim_one_r | apply bdim_eq; shapes |].
  simpl in HmV.
  run_broadcast F_hat; [apply bdim_one_r | apply bdim_eq; shapes |].
  run_dot YU; [shapes |]. simpl in HmYU.
  run_broadcast Z_scaling1; [apply bdim_eq; shapes | apply bdim_one_l |].
  run_broadcast Z_scaling2; [apply bdim_one_r | apply bdim_eq; shapes |].
  run_broadcast V_res; [apply bdim_eq; shapes | apply bdim_one_l |].
  run_broadcast V_hat_res; [apply bdim_eq; shapes | apply bdim_one_l |].
  run_broadcast F_res; [apply bdim_one_r | apply bdim_eq; shapes |].
  simpl in HmV_res.
  run_broadcast F_hat_res; [apply bdim_one_r | apply bdim_eq; shapes |].
  eexists. reflexivity.
Qed.

Lemma decompose_inr (L : Locals.t) :
  decompose np Y X = inr L -> decomposed np Y X L.
Proof.
  unfold decompose. intro H.
  repeat (apply bind_inr in H; destruct H as (? & ? & H)).
  destruct (linalg_lstsq np _ _) as [B rank_lstsq] eqn:EB.
  repeat (apply bind_inr in H; destruct H as (? & ? & H)).
  injection H as <-.
  constructor; unfold fitted_rank, residual_rank; simpl;
    try rewrite EB; simpl; eauto.
Qed.
End Decomposition.

(** ** Shapes and entries of the locals *)

Lemma broadcast2_same_shape_inr (f : Q -> Q -> Q) (A B C : ndarray) :
  broadcast2 f A B = inr C -> nrows A = nrows B -> ncols A = ncols B ->
  nrows C = nrows A /\ ncols C = ncols A.
Proof.
  intros H Hn Hm. apply broadcast2_inr in H. destruct H as (Hn' & Hm' & _).
  rewrite Hn, bdim_same in Hn'. rewrite Hm, bdim_same in Hm'.
  injection Hn' as Hn'. injection Hm' as Hm'. split; congruence.
Qed.

Section Shapes.
Variable np : Numpy.
Hypothesis Hnp : linalg_ok np.
Variables Y X : ndarray.
Hypothesis Hrows : nrows X = nrows Y.
Variable L : Locals.t.
Hypothesis HL : decomposed np Y X L.

Lemma row_marginals_length : length (Locals.row_marginals L) = nrows Y.
Proof. rewrite (dec_row_marginals _ _ _ _ HL), sum_axis1_length. reflexivity. Qed.

Lemma column_marginals_length : length (Locals.column_marginals L) = ncols Y.
Proof. rewrite (dec_column_marginals _ _ _ _ HL), sum_axis0_length. reflexivity. Qed.

Lemma Q_bar_shape : shape (Locals.Q_bar L) = shape Y.
Proof.
  destruct (dec_Q_bar _ _ _ _ HL) as (d & Hd & HQ).
  apply broadcast2_same_shape_inr in Hd;
    [| simpl; rewrite row_marginals_length; reflexivity
     | simpl; rewrite column_marginals_length; reflexivity ].
  simpl in Hd. destruct Hd as [Hdn Hdm].
  apply broadcast2_same_shape_inr in HQ;
    [| simpl; rewrite row_marginals_length; lia
     | simpl; rewrite column_marginals_length; lia ].
  unfold shape. destruct HQ as [-> ->]. congruence.
Qed.

Lemma X_weighted_shape : shape (Locals.X_weighted L) = shape X.
Proof.
  destruct (dec_X_weighted _ _ _ _ HL) as (Xs & HXs & HXw).
  apply scale_inr in HXs. destruct HXs as (Hw & Hn & Hm).
  apply col_vec_mul_inr in HXw; [| rewrite length_map; congruence].
  unfold shape. destruct HXw as (-> & -> & _). congruence.
Qed.

Lemma Y_hat_shape : shape (Locals.Y_hat L) = shape Y.
Proof.
  pose proof Q_bar_shape as HQ. pose proof X_weighted_shape as HX.
  unfold shape in HQ, HX. injection HQ as HQn HQm. injection HX as HXn HXm.
  pose proof (dec_Y_hat _ _ _ _ HL) as H. apply dot_inr in H.
  destruct H as (_ & Hn & Hm).
  destruct (lstsq_shape np Hnp (Locals.X_weighted L) (Locals.Q_bar L))
    as [_ HB]; [congruence |].
  unfold shape. congruence.
Qed.

Lemma Y_res_shape : shape (Locals.Y_res L) = shape Y.
Proof.
  pose proof Q_bar_shape as HQ. pose proof Y_hat_shape as HY.
  unfold shape in HQ, HY. injection HQ as HQn HQm. injection HY as HYn HYm.
  pose proof (dec_Y_res _ _ _ _ HL) as H.
  apply broadcast2_same_shape_inr in H; [| congruence | congruence].
  unfold shape. destruct H as [-> ->]. congruence.
Qed.

(** The number of axes each block retains. *)
Lemma s_length :
  length (Locals.s L)
  = Nat.min (fitted_rank np L) (Nat.min (nrows Y) (ncols Y)).
Proof.
  rewrite (dec_s _ _ _ _ HL), length_firstn.
  destruct (svd_shape np Hnp (Locals.Y_hat L)) as (_ & _ & Hs & _).
  pose proof Y_hat_shape as HY. unfold shape in HY. injection HY as HYn HYm.
  rewrite Hs, HYn, HYm. reflexivity.
Qed.

Lemma s_res_length :
  length (Locals.s_res L)
  = Nat.min (residual_rank np L) (Nat.min (nrows Y) (ncols Y)).
Proof.
  rewrite (dec_s_res _ _ _ _ HL), length_firstn.
  destruct (svd_shape np Hnp (Locals.Y_res L)) as (_ & _ & Hs & _).
  pose proof Y_res_shape as HY. unfold shape in HY. injection HY as HYn HYm.
  rewrite Hs, HYn, HYm. reflexivity.
Qed.

Lemma u_shape : shape (Locals.u L) = (nrows Y, length (Locals.s L)).
Proof.
  rewrite s_length, (dec_u _ _ _ _ HL). unfold shape. simpl.
  destruct (svd_shape np Hnp (Locals.Y_hat L)) as (Hn & Hm & _).
  pose proof Y_hat_shape as HY. unfold shape in HY. injection HY as HYn HYm.
  rewrite Hn, Hm, HYn, HYm. reflexivity.
Qed.

Lemma U_shape : shape (Locals.U L) = (ncols Y, length (Locals.s L)).
Proof.
  rewrite s_length, (dec_U _ _ _ _ HL). unfold shape. simpl.
  destruct (svd_shape np Hnp (Locals.Y_hat L)) as (_ & _ & _ & Hn & Hm).
  pose proof Y_hat_shape as HY. unfold shape in HY. injection HY as HYn HYm.
  rewrite Hn, Hm, HYn, HYm. reflexivity.
Qed.

Lemma U_res_shape : shape (Locals.U_res L) = (ncols Y, length (Locals.s_res L)).
Proof.
  rewrite s_res_length, (dec_U_res _ _ _ _ HL). unfold shape. simpl.
  destruct (svd_shape np Hnp (Locals.Y_res L)) as (_ & _ & _ & Hn & Hm).
  pose proof Y_res_shape as HY. unfold shape in HY. injection HY as HYn HYm.
  rewrite Hn, Hm, HYn, HYm. reflexivity.
Qed.

Lemma U_hat_shape : shape (Locals.U_hat L) = (nrows Y, length (Locals.s L)).
Proof.
  pose proof U_shape as HU. unfold shape in HU. injection HU as HUn HUm.
  pose proof Q_bar_shape as HQ. unfold shape in HQ. injection HQ as HQn HQm.
  destruct (dec_U_hat _ _ _ _ HL) as (QU & HQU & H).
  apply dot_inr in HQU. destruct HQU as (_ & Hn & Hm).
  apply row_vec_mul_inr in H; [| rewrite length_map; congruence].
  unfold shape. destruct H as (-> & -> & _). congruence.
Qed.

Lemma U_hat_res_shape :
  shape (Locals.U_hat_res L) = (nrows Y, length (Locals.s_res L)).
Proof.
  pose proof U_res_shape as HU. unfold shape in HU. injection HU as HUn HUm.
  pose proof Y_res_shape as HQ. unfold shape in HQ. injection HQ as HQn HQm.
  destruct (dec_U_hat_res _ _ _ _ HL) as (QU & HQU & H).
  apply dot_inr in HQU. destruct HQU as (_ & Hn & Hm).
  apply row_vec_mul_inr in H; [| rewrite length_map; congruence].
  unfold shape. destruct H as (-> & -> & _). congruence.
Qed.

Lemma V_shape : shape (Locals.V L) = (ncols Y, length (Locals.s L)).
Proof.
  pose proof U_shape as HU. unfold shape in HU. injection HU as HUn HUm.
  pose proof (dec_V _ _ _ _ HL) as H.
  apply col_vec_mul_inr in H;
    [| rewrite length_map, column_marginals_length; congruence].
  unfold shape. destruct H as (-> & -> & _). congruence.
Qed.

Lemma V_res_shape : shape (Locals.V_res L) = (ncols Y, length (Locals.s_res L)).
Proof.
  pose proof U_res_shape as HU. unfold shape in HU. injection HU as HUn HUm.
  pose proof (dec_V_res _ _ _ _ HL) as H.
  apply col_vec_mul_inr in H;
    [| rewrite length_map, column_marginals_length; congruence].
  unfold shape. destruct H as (-> & -> & _). congruence.
Qed.

Lemma V_hat_shape : shape (Locals.V_hat L) = (nrows Y, length (Locals.s L)).
Proof.
  pose proof U_hat_shape as HU. unfold shape in HU. injection HU as HUn HUm.
  pose proof (dec_V_hat _ _ _ _ HL) as H.
  apply col_vec_mul_inr in H;
    [| rewrite length_map, row_marginals_length; congruence].
  unfold shape. destruct H as (-> & -> & _). congruence.
Qed.

Lemma V_hat_res_shape :
  shape (Locals.V_hat_res L) = (nrows Y, length (Locals.s_res L)).
Proof.
  pose proof U_hat_res_shape as HU. unfold shape in HU. injection HU as HUn HUm.
  pose proof (dec_V_hat_res _ _ _ _ HL) as H.
  apply col_vec_mul_inr in H;
    [| rewrite length_map, row_marginals_length; congruence].
  unfold shape. destruct H as (-> & -> & _). congruence.
Qed.

(** [F = V_hat * s], column by column. *)
Lemma F_spec :
  shape (Locals.F L) = (nrows Y, length (Locals.s L)) /\
  forall i j, (i < nrows Y)%nat -> (j < length (Locals.s L))%nat ->
    at2 (Locals.F L) i j = at2 (Locals.V_hat L) i j * nth j (Locals.s L) 0.
Proof.
  pose proof V_hat_shape as HV. unfold shape in HV. injection HV as HVn HVm.
  pose proof (dec_F _ _ _ _ HL) as H.
  apply row_vec_mul_inr in H; [| congruence].
  destruct H as (Hn & Hm & Hat). unfold shape. split; [congruence |].
  intros i j Hi Hj. apply Hat; congruence.
Qed.

Lemma F_res_spec :
  shape (Locals.F_res L) = (nrows Y, length (Locals.s_res L)) /\
  forall i j, (i < nrows Y)%nat -> (j < length (Locals.s_res L))%nat ->
    at2 (Locals.F_res L) i j
    = at2 (Locals.V_hat_res L) i j * nth j (Locals.s_res L) 0.
Proof.
  pose proof V_hat_res_shape as HV. unfold shape in HV. injection HV as HVn HVm.
  pose proof (dec_F_res _ _ _ _ HL) as H.
  apply row_vec_mul_inr in H; [| congruence].
  destruct H as (Hn & Hm & Hat). unfold shape. split; [congruence |].
  intros i j Hi Hj. apply Hat; congruence.
Qed.

(** [F_hat = V * s], column by column. *)
Lemma F_hat_spec :
  shape (Locals.F_hat L) = (ncols Y, length (Locals.s L)) /\
  forall i j, (i < ncols Y)%nat -> (j < length (Locals.s L))%nat ->
    at2 (Locals.F_hat L) i j = at2 (Locals.V L) i j * nth j (Locals.s L) 0.
Proof.
  pose proof V_shape as HV. unfold shape in HV. injection HV as HVn HVm.
  pose proof (dec_F_hat _ _ _ _ HL) as H.
  apply row_vec_mul_inr in H; [| congruence].
  destruct H as (Hn & Hm & Hat). unfold shape. split; [congruence |].
  intros i j Hi Hj. apply Hat; congruence.
Qed.

Lemma F_hat_res_spec :
  shape (Locals.F_hat_res L) = (ncols Y, length (Locals.s_res L)) /\
  forall i j, (i < ncols Y)%nat -> (j < length (Locals.s_res L))%nat ->
    at2 (Locals.F_hat_res L) i j
    = at2 (Locals.V_res L) i j * nth j (Locals.s_res L) 0.
Proof.
  pose proof V_res_shape as HV. unfold shape in HV. injection HV as HVn HVm.
  pose proof (dec_F_hat_res _ _ _ _ HL) as H.
  apply row_vec_mul_inr in H; [| congruence].
  destruct H as (Hn & Hm & Hat). unfold shape. split; [congruence |].
  intros i j Hi Hj. apply Hat; congruence.
Qed.

Lemma Z_scaling1_shape :
  shape (Locals.Z_scaling1 L) = (nrows Y, length (Locals.s L)).
Proof.
  pose proof U_shape as HU. unfold shape in HU. injection HU as HUn HUm.
  pose proof Y_hat_shape as HY. unfold shape in HY. injection HY as HYn HYm.
  destruct (dec_Z_scaling1 _ _ _ _ HL) as (YU & HYU & H).
  apply dot_inr in HYU. destruct HYU as (_ & Hn & Hm).
  apply col_vec_mul_inr in H;
    [| rewrite length_map, row_marginals_length; congruence].
  unfold shape. destruct H as (-> & -> & _). congruence.
Qed.

Lemma Z_scaling2_shape :
  shape (Locals.Z_scaling2 L) = (nrows Y, length (Locals.s L)).
Proof.
  pose proof Z_scaling1_shape as HZ. unfold shape in HZ. injection HZ as HZn HZm.
  pose proof (dec_Z_scaling2 _ _ _ _ HL) as H.
  apply row_vec_mul_inr in H; [| rewrite length_map; congruence].
  unfold shape. destruct H as (-> & -> & _). congruence.
Qed.
End Shapes.

(** ** The whole call *)

Lemma select_scores_returns (np : Numpy) (Y X : ndarray) (L : Locals.t)
    (scaling : Z) :
  linalg_ok np -> nrows X = nrows Y -> decomposed np Y X L ->
  (scaling = 1 \/ scaling = 2)%Z ->
  returns (select_scores scaling L).
Proof.
  intros Hnp Hrows HL Hs.
  pose proof (V_shape np Hnp Y X Hrows L HL) as HV.
  pose proof (V_res_shape np Hnp Y X Hrows L HL) as HVr.
  pose proof (V_hat_shape np Hnp Y X Hrows L HL) as HVh.
  pose proof (V_hat_res_shape np Hnp Y X Hrows L HL) as HVhr.
  destruct (F_spec np Hnp Y X Hrows L HL) as [HF _].
  destruct (F_res_spec np Hnp Y X Hrows L HL) as [HFr _].
  destruct (F_hat_spec np Hnp Y X Hrows L HL) as [HFh _].
  destruct (F_hat_res_spec np Hnp Y X Hrows L HL) as [HFhr _].
  pose proof (Z_scaling1_shape np Hnp Y X Hrows L HL) as HZ1.
  pose proof (Z_scaling2_shape np Hnp Y X Hrows L HL) as HZ2.
  unfold shape in *.
  unfold select_scores.
  destruct Hs as [-> | ->]; simpl.
  - destruct (hstack_returns (Locals.V L) (Locals.V_res L)) as (a & ->);
      [congruence |].
    destruct (hstack_returns (Locals.F L) (Locals.F_res L)) as (b & ->);
      [congruence |].
    destruct (hstack_returns (Locals.Z_scaling1 L) (Locals.F_res L)) as (c & ->);
      [congruence |].
    eexists; reflexivity.
  - destruct (hstack_returns (Locals.F_hat L) (Locals.F_hat_res L)) as (a & ->);
      [congruence |].
    destruct (hstack_returns (Locals.V_hat L) (Locals.V_hat_res L)) as (b & ->);
      [congruence |].
    destruct (hstack_returns (Locals.Z_scaling2 L) (Locals.V_hat_res L)) as (c & ->);
      [congruence |].
    eexists; reflexivity.
Qed.

(** A call that passes the validation returns, and this is what it returns. *)
Lemma cca_run (np : Numpy) (y x : DataFrame) (scaling : Z) :
  linalg_ok np ->
  validate (as_matrix y) (as_matrix x) scaling = inr tt ->
  exists L species_scores site_scores site_constraints biplot,
    decompose np (as_matrix y) (as_matrix x) = inr L /\
    select_scores scaling L = inr (species_scores, site_scores, site_constraints) /\
    corr np (Locals.X_weighted L) (Locals.u L) = inr biplot /\
    shape biplot = (ncols (as_matrix x), length (Locals.s L)) /\
    cca np y x scaling =
    inr (mkOrdinationResults "CCA" "Canonical Correspondence Analysis"
           (mkSeries (Locals.eigenvalues L) [])
           (mkDataFrame site_scores [] [])
           (mkDataFrame species_scores [] [])
           (mkDataFrame biplot [] [])
           (mkDataFrame site_constraints [] [])
           (series_div_sum (mkSeries (Locals.eigenvalues L) []))).
Proof.
  intros Hnp Hv.
  destruct (validate_accepts _ _ _ Hv) as (Hrows & Hn & Hm & Hs).
  destruct (decompose_returns np Hnp _ _ Hrows) as (L & HL).
  pose proof (decompose_inr np _ _ L HL) as HD.
  destruct (select_scores_returns np _ _ L scaling Hnp Hrows HD Hs)
    as ([[species site] constraints] & Hsel).
  pose proof (X_weighted_shape np _ _ L HD) as HXw.
  pose proof (u_shape np Hnp _ _ Hrows L HD) as Hu.
  unfold shape in HXw, Hu. injection HXw as HXn HXm. injection Hu as Hun Hum.
  destruct (corr_returns np (Locals.X_weighted L) (Locals.u L))
    as (biplot & Hb & Hbn & Hbm); [congruence |].
  exists L, species, site, constraints, biplot.
  repeat split; try assumption.
  - unfold shape. congruence.
  - unfold cca. rewrite Hv. cbn [bind]. rewrite HL. cbn [bind].
    unfold assemble. rewrite Hsel. cbn [bind]. rewrite Hb. reflexivity.
Qed.

(** ** The reference instance keeps numpy's promises *)

Lemma descending_repeat (c : Q) (k : nat) : descending (repeat c k).
Proof.
  induction k as [| k IH]; simpl; [constructor |].
  destruct k; simpl in *; constructor; [apply Qle_refl | exact IH].
Qed.

Lemma Forall_repeat_nonneg (k : nat) : Forall (fun x => 0 <= x) (repeat 0 k).
Proof. induction k; simpl; constructor; [apply Qle_refl | assumption]. Qed.

Lemma ref_sigma_nonneg (x : Q) : 0 <= Qred (4 * Qabs x).
Proof.
  rewrite Qred_correct. apply Qmult_le_0_compat; [discriminate | apply Qabs_nonneg].
Qed.

Lemma ref_numpy_ok : linalg_ok ref_numpy.
Proof.
  constructor; simpl.
  - intros a b _. unfold ref_lstsq.
    destruct (ncols a =? 1)%nat eqn:E; simpl.
    + apply Nat.eqb_eq in E.
      destruct (negb _); simpl; split; congruence.
    + split; reflexivity.
  - intro M. unfold ref_svd.
    destruct (negb (is_zero M)); simpl.
    + destruct (nrows M =? 4)%nat eqn:En; simpl.
      * destruct (ncols M =? 4)%nat eqn:Em; simpl.
        -- apply Nat.eqb_eq in En, Em. rewrite En, Em. simpl. auto.
        -- rewrite repeat_length. auto.
      * rewrite repeat_length. auto.
    + rewrite repeat_length. auto.
  - intro M. unfold ref_svd.
    destruct (negb (is_zero M) && (nrows M =? 4)%nat && (ncols M =? 4)%nat)%bool;
      simpl.
    + constructor; [apply ref_sigma_nonneg |].
      repeat constructor; apply Qle_refl.
    + apply descending_repeat.
  - intro M. unfold ref_svd.
    destruct (negb (is_zero M) && (nrows M =? 4)%nat && (ncols M =? 4)%nat)%bool;
      simpl.
    + constructor; [apply ref_sigma_nonneg |].
      repeat constructor; apply Qle_refl.
    + apply Forall_repeat_nonneg.
Qed.

(** * The validation *)

(** C1, as the specification states it, fails on a table with no sample:
    the row counts agree, no entry is negative, no row is degenerate and the
    scaling is 1, and yet [Y.min()] raises, so the call fails during the
    validation. *)
Lemma validation_rejects_zero_size :
  ~ (raises (validate (as_matrix y_empty) (as_matrix x_empty) 1) <->
     rejected (as_matrix y_empty) (as_matrix x_empty) 1).
Proof.
  intros [H _].
  assert (Hr : raises (validate (as_matrix y_empty) (as_matrix x_empty) 1)).
  { exists ZeroSizeReduction. reflexivity. }
  destruct (H Hr) as [Hrows | [Hneg | [Hdeg | [Hs _]]]].
  - apply Hrows. reflexivity.
  - destruct Hneg as (i & j & Hi & _). simpl in Hi. lia.
  - destruct Hdeg as (i & Hi & _). simpl in Hi. lia.
  - apply Hs. reflexivity.
Qed.

(** C1, amended: for an abundance table with at least one sample and one
    feature, the call fails during the validation if and only if the row
    counts differ, or an abundance is negative, or the largest abundance of
    a sample is not positive, or the scaling is neither 1 nor 2.  The error
    is the error of the whole call whatever numpy would compute, it is one
    of the four errors of the validation, and nothing of [X] but its row
    count is looked at. *)
Theorem validation_rejects_iff (np : Numpy) (y x : DataFrame) (scaling : Z) :
  (0 < nrows (as_matrix y))%nat -> (0 < ncols (as_matrix y))%nat ->
  (raises (validate (as_matrix y) (as_matrix x) scaling) <->
   rejected (as_matrix y) (as_matrix x) scaling) /\
  (forall e, validate (as_matrix y) (as_matrix x) scaling = inl e ->
     cca np y x scaling = inl e /\
     (e = RowCountMismatch (nrows (as_matrix x)) (nrows (as_matrix y)) \/
      e = NegativeAbundance \/ e = DegenerateSampleRow \/
      e = UnsupportedScaling scaling)) /\
  (forall X', nrows X' = nrows (as_matrix x) ->
     validate (as_matrix y) X' scaling
     = validate (as_matrix y) (as_matrix x) scaling).
Proof.
  intros Hn Hm.
  pose proof (entries_nonempty _ Hn Hm) as Hne.
  pose proof (validate_outcome (as_matrix y) (as_matrix x) scaling) as Ho.
  split; [| split].
  - unfold rejected. split.
    + intros (e & He). rewrite He in Ho.
      inversion Ho; subst; auto; contradiction.
    + intros Hrej. unfold raises.
      inversion Ho as [ | | | | | Hr _ Hnn Hnd Hs Heq ]; eauto.
      exfalso. destruct Hrej as [H | [H | [H | [H1 H2]]]]; try contradiction.
      destruct Hs; contradiction.
  - intros e He. split; [apply cca_validation_error, He |].
    rewrite He in Ho. inversion Ho; subst; auto; contradiction.
  - intros X' HX'. apply validate_ignores_constraints, HX'.
Qed.

Lemma validation_rejects_iff_witness :
  (0 < nrows (as_matrix y_negative))%nat /\
  (0 < ncols (as_matrix y_negative))%nat /\
  (raises (validate (as_matrix y_negative) (as_matrix x_flat) 3) <->
   rejected (as_matrix y_negative) (as_matrix x_flat) 3).
Proof.
  split; [simpl; lia |]. split; [simpl; lia |].
  apply (validation_rejects_iff ref_numpy y_negative x_flat 3); simpl; lia.
Defined.

(** C10: the checks are made in a fixed order.  A row-count mismatch is
    reported whatever else is wrong; with equal row counts a negative
    abundance is reported whatever the rows and the scaling are; a degenerate
    row is reported when no abundance is negative, whatever the scaling is;
    the scaling is complained about only when the table has passed the three
    other checks.  In particular a table with a negative abundance and
    scaling 3 is rejected for the negative abundance. *)
Theorem validation_order (np : Numpy) (y x : DataFrame) (scaling : Z) :
  (nrows (as_matrix x) <> nrows (as_matrix y) ->
   cca np y x scaling
   = inl (RowCountMismatch (nrows (as_matrix x)) (nrows (as_matrix y)))) /\
  (nrows (as_matrix x) = nrows (as_matrix y) -> has_negative (as_matrix y) ->
   cca np y x scaling = inl NegativeAbundance) /\
  (nrows (as_matrix x) = nrows (as_matrix y) -> ~ has_negative (as_matrix y) ->
   has_degenerate_row (as_matrix y) ->
   cca np y x scaling = inl DegenerateSampleRow) /\
  (nrows (as_matrix x) = nrows (as_matrix y) -> entries (as_matrix y) <> [] ->
   ~ has_negative (as_matrix y) -> ~ has_degenerate_row (as_matrix y) ->
   (scaling <> 1 /\ scaling <> 2)%Z ->
   cca np y x scaling = inl (UnsupportedScaling scaling)) /\
  (forall s, validate (as_matrix y) (as_matrix x) scaling = inl (UnsupportedScaling s) ->
   nrows (as_matrix x) = nrows (as_matrix y) /\ ~ has_negative (as_matrix y) /\
   ~ has_degenerate_row (as_matrix y)) /\
  (nrows (as_matrix x) = nrows (as_matrix y) -> has_negative (as_matrix y) ->
   scaling = 3%Z -> cca np y x scaling = inl NegativeAbundance).
Proof.
  pose proof (validate_outcome (as_matrix y) (as_matrix x) scaling) as Ho.
  repeat split.
  - intro H. apply cca_validation_error.
    inversion Ho; try contradiction. reflexivity.
  - intros Hr Hneg. apply cca_validation_error.
    pose proof (has_negative_nonempty _ Hneg).
    inversion Ho; try contradiction. reflexivity.
  - intros Hr Hnn Hdeg. apply cca_validation_error.
    pose proof (has_degenerate_row_nonempty _ Hdeg).
    inversion Ho; try contradiction. reflexivity.
  - intros Hr Hne Hnn Hnd [H1 H2]. apply cca_validation_error.
    inversion Ho as [ | | | | | ? ? ? ? Hs ]; try contradiction; [reflexivity |].
    destruct Hs; contradiction.
  - rewrite H in Ho. inversion Ho; assumption.
  - rewrite H in Ho. inversion Ho; assumption.
  - rewrite H in Ho. inversion Ho; assumption.
  - intros Hr Hneg _. apply cca_validation_error.
    pose proof (has_negative_nonempty _ Hneg).
    inversion Ho; try contradiction. reflexivity.
Qed.

Lemma validation_order_witness :
  nrows (as_matrix x_flat) = nrows (as_matrix y_negative) /\
  has_negative (as_matrix y_negative) /\
  cca ref_numpy y_negative x_flat 3 = inl NegativeAbundance.
Proof.
  assert (Hneg : has_negative (as_matrix y_negative)).
  { exists 0%nat, 1%nat. simpl. repeat split; try lia. }
  split; [reflexivity |]. split; [exact Hneg |].
  apply (validation_order ref_numpy y_negative x_flat 3);
    [reflexivity | exact Hneg | reflexivity].
Defined.

(** * The returned tables *)

Lemma svd_rank_le (M_shape : nat * nat) (S : list Q) :
  (svd_rank M_shape S <= length S)%nat.
Proof. unfold svd_rank. cbv zeta. apply List.filter_length_le. Qed.

Lemma firstn_length_app {A : Type} (l l' : list A) :
  firstn (length l) (l ++ l') = l.
Proof. induction l as [| a l IH]; simpl; [reflexivity | now rewrite IH]. Qed.

Lemma skipn_length_app {A : Type} (l l' : list A) :
  skipn (length l) (l ++ l') = l'.
Proof. induction l as [| a l IH]; simpl; [reflexivity | exact IH]. Qed.

Section Retained.
Variable np : Numpy.
Hypothesis Hnp : linalg_ok np.
Variables Y X : ndarray.
Hypothesis Hrows : nrows X = nrows Y.
Variable L : Locals.t.
Hypothesis HL : decomposed np Y X L.

(** Every singular value the rank counts is kept. *)
Lemma fitted_rank_retained : length (Locals.s L) = fitted_rank np L.
Proof.
  clear Hrows Hnp. rewrite (dec_s _ _ _ _ HL), length_firstn.
  pose proof (svd_rank_le (shape (Locals.Y_hat L))
                (svd_s (linalg_svd np (Locals.Y_hat L)))) as Hle.
  unfold fitted_rank at 2. unfold fitted_rank. lia.
Qed.

Lemma residual_rank_retained : length (Locals.s_res L) = residual_rank np L.
Proof.
  clear Hrows Hnp. rewrite (dec_s_res _ _ _ _ HL), length_firstn.
  pose proof (svd_rank_le (shape (Locals.Y_res L))
                (svd_s (linalg_svd np (Locals.Y_res L)))) as Hle.
  unfold residual_rank at 2. unfold residual_rank. lia.
Qed.

Lemma eigenvalues_length :
  length (Locals.eigenvalues L)
  = (length (Locals.s L) + length (Locals.s_res L))%nat.
Proof. rewrite (dec_eigenvalues _ _ _ _ HL), length_map, length_app. reflexivity. Qed.

(** The stacked tables have one column per retained axis. *)
Lemma select_scores_shape (scaling : Z) (species site constraints : ndarray) :
  select_scores scaling L = inr (species, site, constraints) ->
  shape species = (ncols Y, (length (Locals.s L) + length (Locals.s_res L))%nat) /\
  shape site = (nrows Y, (length (Locals.s L) + length (Locals.s_res L))%nat) /\
  shape constraints
  = (nrows Y, (length (Locals.s L) + length (Locals.s_res L))%nat).
Proof.
  pose proof (V_shape np Hnp Y X Hrows L HL) as HV.
  pose proof (V_res_shape np Hnp Y X Hrows L HL) as HVr.
  pose proof (V_hat_shape np Hnp Y X Hrows L HL) as HVh.
  pose proof (V_hat_res_shape np Hnp Y X Hrows L HL) as HVhr.
  destruct (F_spec np Hnp Y X Hrows L HL) as [HF _].
  destruct (F_res_spec np Hnp Y X Hrows L HL) as [HFr _].
  destruct (F_hat_spec np Hnp Y X Hrows L HL) as [HFh _].
  destruct (F_hat_res_spec np Hnp Y X Hrows L HL) as [HFhr _].
  pose proof (Z_scaling1_shape np Hnp Y X Hrows L HL) as HZ1.
  pose proof (Z_scaling2_shape np Hnp Y X Hrows L HL) as HZ2.
  unfold shape in *.
  unfold select_scores. intro H.
  destruct (scaling =? 1)%Z; [| destruct (scaling =? 2)%Z; [| discriminate]].
  - apply bind_inr in H. destruct H as (a & Ha & H).
    apply bind_inr in H. destruct H as (b & Hb & H).
    apply bind_inr in H. destruct H as (c & Hc & H).
    injection H as <- <- <-.
    apply hstack_inr in Ha, Hb, Hc.
    destruct Ha as (_ & Han & Ham & _), Hb as (_ & Hbn & Hbm & _),
             Hc as (_ & Hcn & Hcm & _).
    repeat split; f_equal; congruence.
  - apply bind_inr in H. destruct H as (a & Ha & H).
    apply bind_inr in H. destruct H as (b & Hb & H).
    apply bind_inr in H. destruct H as (c & Hc & H).
    injection H as <- <- <-.
    apply hstack_inr in Ha, Hb, Hc.
    destruct Ha as (_ & Han & Ham & _), Hb as (_ & Hbn & Hbm & _),
             Hc as (_ & Hcn & Hcm & _).
    repeat split; f_equal; congruence.
Qed.
End Retained.



(** ** The two scalings *)

Lemma select_scores_1_inr (L : Locals.t) (species site constraints : ndarray) :
  select_scores 1 L = inr (species, site, constraints) ->
  hstack (Locals.V L) (Locals.V_res L) = inr species /\
  hstack (Locals.F L) (Locals.F_res L) = inr site /\
  hstack (Locals.Z_scaling1 L) (Locals.F_res L) = inr constraints.
Proof.
  unfold select_scores. simpl. intro H.
  apply bind_inr in H. destruct H as (a & Ha & H).
  apply bind_inr in H. destruct H as (b & Hb & H).
  apply bind_inr in H. destruct H as (c & Hc & H).
  injection H as <- <- <-. auto.
Qed.

Lemma select_scores_2_inr (L : Locals.t) (species site constraints : ndarray) :
  select_scores 2 L = inr (species, site, constraints) ->
  hstack (Locals.F_hat L) (Locals.F_hat_res L) = inr species /\
  hstack (Locals.V_hat L) (Locals.V_hat_res L) = inr site /\
  hstack (Locals.Z_scaling2 L) (Locals.V_hat_res L) = inr constraints.
Proof.
  unfold select_scores. simpl. intro H.
  apply bind_inr in H. destruct H as (a & Ha & H).
  apply bind_inr in H. destruct H as (b & Hb & H).
  apply bind_inr in H. destruct H as (c & Hc & H).
  injection H as <- <- <-. auto.
Qed.

(** Two stacked tables whose blocks differ by the factors [s] and [s']. *)
Lemma hstack_scaled (A A' B B' C C' : ndarray) (s s' : list Q) (n : nat) :
  hstack A' B' = inr C' -> hstack A B = inr C ->
  ncols A = length s -> ncols A' = length s ->
  (forall i j, (i < n)%nat -> (j < length s)%nat ->
     at2 A' i j = at2 A i j * nth j s 0) ->
  (forall i j, (i < n)%nat -> (j < length s')%nat ->
     at2 B' i j = at2 B i j * nth j s' 0) ->
  forall i j, (i < n)%nat -> (j < length (s ++ s'))%nat ->
    at2 C' i j = at2 C i j * nth j (s ++ s') 0.
Proof.
  intros HC' HC HA HA' Hfit Hres i j Hi Hj.
  apply hstack_inr in HC', HC.
  destruct HC' as (_ & _ & _ & ->), HC as (_ & _ & _ & ->).
  rewrite HA, HA'. rewrite length_app in Hj.
  destruct (j <? length s)%nat eqn:E.
  - apply Nat.ltb_lt in E. rewrite app_nth1 by exact E. apply Hfit; assumption.
  - apply Nat.ltb_ge in E. rewrite app_nth2 by exact E. apply Hres; [assumption | lia].
Qed.



(** ** The order of the eigenvalues *)

Lemma descending_tail (a : Q) (l : list Q) : descending (a :: l) -> descending l.
Proof. intro H. inversion H; [constructor | assumption]. Qed.

Lemma descending_firstn (k : nat) (l : list Q) :
  descending l -> descending (firstn k l).
Proof.
  revert l. induction k as [| k IH]; intros l H; simpl; [constructor |].
  destruct l as [| a l]; [constructor |].
  pose proof (IH l (descending_tail a l H)) as Hk.
  destruct l as [| b l]; [destruct k; constructor |].
  destruct k as [| k]; simpl in *; [constructor |].
  inversion H; subst. constructor; assumption.
Qed.

Lemma square_le (a b : Q) : 0 <= b -> b <= a -> b * b <= a * a.
Proof. intros H0 Hab. nra. Qed.

Lemma descending_squares (l : list Q) :
  descending l -> Forall (fun x => 0 <= x) l ->
  descending (map (fun v => v * v) l).
Proof.
  induction 1 as [| a | a b l Hba Hd IH]; intro Hnn; simpl; try constructor.
  - inversion Hnn as [| ? ? _ Hnn']; subst. inversion Hnn'; subst.
    apply square_le; assumption.
  - apply IH. inversion Hnn; assumption.
Qed.

Lemma Forall_firstn {A : Type} (P : A -> Prop) (k : nat) (l : list A) :
  Forall P l -> Forall P (firstn k l).
Proof.
  revert l. induction k as [| k IH]; intros l H; simpl; [constructor |].
  destruct H; constructor; auto.
Qed.



(** ** A decomposition of effective rank zero *)

Lemma flat_ranks :
  match decompose ref_numpy (as_matrix y_flat) (as_matrix x_flat) with
  | inr L => fitted_rank ref_numpy L = 0%nat /\ residual_rank ref_numpy L = 0%nat
  | inl _ => False
  end.
Proof. vm_compute. auto. Qed.

Lemma four_ranks :
  match decompose ref_numpy (as_matrix y_four) (as_matrix x_four) with
  | inr L => Locals.eigenvalues L = [1 # 4]
  | inl _ => False
  end.
Proof. vm_compute. reflexivity. Qed.




(** ** The biplot scores *)



(** ** The proportions *)

Lemma fold_Qplus_compat (l : list Q) (a b : Q) :
  a == b -> fold_left Qplus l a == fold_left Qplus l b.
Proof.
  revert a b. induction l as [| x l IH]; intros a b Hab; simpl; [exact Hab |].
  apply IH. rewrite Hab. reflexivity.
Qed.

Lemma fold_Qplus_div (l : list Q) (a c : Q) :
  fold_left Qplus (map (fun e => e / c) l) (a / c) == fold_left Qplus l a / c.
Proof.
  revert a. induction l as [| x l IH]; intro a; simpl; [reflexivity |].
  rewrite <- IH. apply fold_Qplus_compat. unfold Qdiv. ring.
Qed.

Lemma Qsum_div (l : list Q) (c : Q) :
  Qsum (map (fun e => e / c) l) == Qsum l / c.
Proof.
  unfold Qsum. rewrite <- fold_Qplus_div. apply fold_Qplus_compat.
  unfold Qdiv. ring.
Qed.

Lemma fold_Qplus_ge (l : list Q) (a : Q) :
  Forall (fun x => 0 < x) l -> a <= fold_left Qplus l a.
Proof.
  revert a. induction l as [| x l IH]; intros a H; simpl; [apply Qle_refl |].
  inversion H as [| ? ? Hx Hl]; subst.
  apply Qle_trans with (a + x); [lra | apply IH, Hl].
Qed.

Lemma Qsum_pos (l : list Q) :
  Forall (fun x => 0 < x) l -> l <> [] -> 0 < Qsum l.
Proof.
  intros H Hne. destruct l as [| x l]; [congruence |].
  inversion H as [| ? ? Hx Hl]; subst. unfold Qsum. simpl.
  apply Qlt_le_trans with (0 + x); [lra | apply fold_Qplus_ge, Hl].
Qed.

Lemma fold_Qmax_ge (l : list Q) (a : Q) : a <= fold_left Qmax l a.
Proof.
  revert a. induction l as [| x l IH]; intro a; simpl; [apply Qle_refl |].
  apply Qle_trans with (Qmax a x); [apply Q.le_max_l | apply IH].
Qed.

Lemma descending_le_head (a : Q) (l : list Q) :
  descending (a :: l) -> Forall (fun x => x <= a) l.
Proof.
  revert a. induction l as [| b l IH]; intros a H; [constructor |].
  inversion H as [| | ? ? ? Hba Hd]; subst. constructor; [exact Hba |].
  apply Forall_impl with (P := fun x => x <= b); [| apply IH, Hd].
  intros x Hx. apply Qle_trans with b; assumption.
Qed.

(** In a descending list the values above a threshold come first. *)
Lemma firstn_above_threshold (t : Q) (S : list Q) :
  descending S ->
  firstn (length (filter (fun x => Qlt_bool t x) S)) S
  = filter (fun x => Qlt_bool t x) S.
Proof.
  induction S as [| a S IH]; intro H; [reflexivity |]. simpl.
  destruct (Qlt_bool t a) eqn:E; simpl.
  - rewrite IH; [reflexivity | apply (descending_tail a), H].
  - assert (Hnone : filter (fun x => Qlt_bool t x) S = []).
    { pose proof (descending_le_head a S H) as Hle.
      clear IH H. induction S as [| b S IH]; [reflexivity |]. simpl.
      inversion Hle as [| ? ? Hb HS]; subst.
      destruct (Qlt_bool t b) eqn:Eb; [| apply IH, HS].
      exfalso. apply Qlt_bool_iff in Eb.
      assert (Ha : t < a) by (apply Qlt_le_trans with b; assumption).
      apply Qlt_bool_iff in Ha. congruence. }
    rewrite Hnone. reflexivity.
Qed.

Lemma eps_pos : 0 < eps.
Proof. reflexivity. Qed.

Lemma Qnat_nonneg (n : nat) : 0 <= Qnat n.
Proof.
  unfold Qnat, Qle. simpl. lia.
Qed.

(** The singular values the effective rank retains are positive. *)
Lemma svd_rank_retains_positive (M_shape : nat * nat) (S : list Q) :
  descending S -> Forall (fun x => 0 < x) (firstn (svd_rank M_shape S) S).
Proof.
  intro H. unfold svd_rank. cbv zeta. rewrite (firstn_above_threshold _ S H).
  apply Forall_forall. intros x Hx. apply filter_In in Hx. destruct Hx as [_ Hx].
  apply Qlt_bool_iff in Hx. apply Qle_lt_trans with (2 := Hx).
  apply Qmult_le_0_compat; [| apply Qlt_le_weak, eps_pos].
  apply Qmult_le_0_compat; [apply fold_Qmax_ge | apply Qnat_nonneg].
Qed.

Lemma eigenvalues_positive (np : Numpy) (Y X : ndarray) (L : Locals.t) :
  linalg_ok np -> decomposed np Y X L ->
  Forall (fun x => 0 < x) (Locals.eigenvalues L).
Proof.
  intros Hnp HD. rewrite (dec_eigenvalues _ _ _ _ HD).
  apply Forall_forall. intros e He. apply in_map_iff in He.
  destruct He as (v & <- & Hv).
  assert (Hpos : 0 < v).
  { apply in_app_or in Hv. destruct Hv as [Hv | Hv].
    - rewrite (dec_s _ _ _ _ HD) in Hv.
      pose proof (svd_rank_retains_positive (shape (Locals.Y_hat L)) _
                    (svd_sorted np Hnp (Locals.Y_hat L))) as H.
      rewrite Forall_forall in H. apply H, Hv.
    - rewrite (dec_s_res _ _ _ _ HD) in Hv.
      pose proof (svd_rank_retains_positive (shape (Locals.Y_res L)) _
                    (svd_sorted np Hnp (Locals.Y_res L))) as H.
      rewrite Forall_forall in H. apply H, Hv. }
  nra.
Qed.




(** ** The identifiers *)

(** Whatever the tables and whatever numpy computes, the result carries no
    label. *)
Lemma cca_labels (np : Numpy) (y x : DataFrame) (scaling : Z)
    (r : OrdinationResults) :
  cca np y x scaling = inr r ->
  sr_index (eigvals r) = [] /\
  df_index (samples r) = [] /\ df_columns (samples r) = [] /\
  df_index (sample_constraints r) = [] /\
  df_index (features r) = [] /\
  df_index (biplot_scores r) = [].
Proof.
  unfold cca. intro H.
  apply bind_inr in H. destruct H as (_ & _ & H).
  apply bind_inr in H. destruct H as (L & _ & H).
  unfold assemble in H.
  apply bind_inr in H. destruct H as ([[species site] constraints] & _ & H).
  apply bind_inr in H. destruct H as (biplot & _ & H).
  injection H as <-. simpl. repeat split.
Qed.


(** * The reference instance at work *)

(** Four samples whose abundances follow the single constraint exactly: one
    fitted axis of eigenvalue 1/4, no residual axis. *)
Example cca_four_scaling1 :
  match cca ref_numpy y_four x_four 1 with
  | inr r =>
      map Qred (sr_values (eigvals r)) = [1 # 4] /\
      reduced (df_values (samples r)) = [[1 # 2]; [1 # 2]; [-1 # 2]; [-1 # 2]] /\
      reduced (df_values (features r)) = [[1]; [-1]; [1]; [-1]] /\
      reduced (df_values (biplot_scores r)) = [[1]] /\
      map Qred (sr_values (proportion_explained r)) = [1]
  | inl _ => False
  end.
Proof. vm_compute. repeat split. Qed.

Example cca_four_scaling2 :
  match cca ref_numpy y_four x_four 2 with
  | inr r =>
      map Qred (sr_values (eigvals r)) = [1 # 4] /\
      reduced (df_values (samples r)) = [[1]; [1]; [-1]; [-1]] /\
      reduced (df_values (features r))
      = [[1 # 2]; [-1 # 2]; [1 # 2]; [-1 # 2]]
  | inl _ => False
  end.
Proof. vm_compute. repeat split. Qed.

Example cca_flat :
  match cca ref_numpy y_flat x_flat 1 with
  | inr r =>
      sr_values (eigvals r) = [] /\
      to_rows (df_values (samples r)) = [[]; []] /\
      sr_values (proportion_explained r) = []
  | inl _ => False
  end.
Proof. vm_compute. repeat split. Qed.

Example cca_rejections :
  cca ref_numpy y_four x_flat 1 = inl (RowCountMismatch 2 4) /\
  cca ref_numpy y_negative x_flat 3 = inl NegativeAbundance /\
  cca ref_numpy y_zero_row x_flat 3 = inl DegenerateSampleRow /\
  cca ref_numpy y_four x_four 3 = inl (UnsupportedScaling 3) /\
  cca ref_numpy y_empty x_empty 1 = inl ZeroSizeReduction.
Proof. repeat split. Qed.


(** * More about the validation *)

Lemma not_has_negative_iff (Y : ndarray) : ~ has_negative Y <-> nonnegative Y.
Proof.
  split.
  - intros H i j Hi Hj. destruct (Qlt_le_dec (at2 Y i j) 0) as [Hlt | Hle];
      [| exact Hle]. exfalso. apply H. exists i, j. auto.
  - intros H (i & j & Hi & Hj & Hlt).
    apply (Qlt_not_le _ _ Hlt), H; assumption.
Qed.

(** Among finitely many numbers, either none is positive or one is. *)
Lemma positive_search (a : nat -> Q) (m : nat) :
  (forall j, (j < m)%nat -> a j <= 0) \/ (exists j, (j < m)%nat /\ 0 < a j).
Proof.
  induction m as [| m [IH | (j & Hj & Hpos)]].
  - left. intros j Hj. lia.
  - destruct (Qlt_le_dec 0 (a m)) as [Hpos | Hle].
    + right. exists m. split; [lia | exact Hpos].
    + left. intros j Hj. destruct (Nat.eq_dec j m) as [-> | Hne];
        [exact Hle | apply IH; lia].
  - right. exists j. split; [lia | exact Hpos].
Qed.

Lemma not_has_degenerate_row_iff (Y : ndarray) :
  (0 < ncols Y)%nat -> (~ has_degenerate_row Y <-> every_row_positive Y).
Proof.
  intro Hm. split.
  - intros H i Hi.
    destruct (positive_search (at2 Y i) (ncols Y)) as [Hall | Hex];
      [| exact Hex].
    exfalso. apply H. exists i. auto.
  - intros H (i & Hi & _ & Hall). destruct (H i Hi) as (j & Hj & Hpos).
    apply (Qlt_not_le _ _ Hpos), Hall, Hj.
Qed.

Lemma validate_accepted_table (Y X : ndarray) (scaling : Z) :
  validate Y X scaling = inr tt -> nonnegative Y /\ every_row_positive Y.
Proof.
  intro H. pose proof (validate_outcome Y X scaling) as Ho.
  destruct (validate_accepts _ _ _ H) as (_ & _ & Hm & _).
  rewrite H in Ho. inversion Ho as [ | | | | | _ _ Hnn Hnd _ ].
  split; [apply not_has_negative_iff, Hnn |].
  apply not_has_degenerate_row_iff; assumption.
Qed.

(** X1: the validation accepts exactly the calls in which the two tables
    have the same number of rows, the abundance table has a sample and a
    feature, no abundance is negative, every sample has a positive
    abundance, and the scaling is 1 or 2. *)
Theorem validate_accepts_iff (y x : DataFrame) (scaling : Z) :
  validate (as_matrix y) (as_matrix x) scaling = inr tt <->
  nrows (as_matrix x) = nrows (as_matrix y) /\
  (0 < nrows (as_matrix y))%nat /\ (0 < ncols (as_matrix y))%nat /\
  nonnegative (as_matrix y) /\ every_row_positive (as_matrix y) /\
  (scaling = 1 \/ scaling = 2)%Z.
Proof.
  pose proof (validate_outcome (as_matrix y) (as_matrix x) scaling) as Ho.
  split.
  - intro H. destruct (validate_accepts _ _ _ H) as (Hr & Hn & Hm & Hs).
    destruct (validate_accepted_table _ _ _ H) as [Hnn Hpos].
    repeat split; assumption.
  - intros (Hr & Hn & Hm & Hnn & Hpos & Hs).
    pose proof (entries_nonempty _ Hn Hm) as Hne.
    apply not_has_negative_iff in Hnn.
    apply (not_has_degenerate_row_iff _ Hm) in Hpos.
    inversion Ho as [ | | | | Hr' Hne' Hnn' Hnd' [H1 H2] | ];
      try contradiction; [| reflexivity].
    destruct Hs; contradiction.
Qed.



(** * The marginal totals *)

Lemma fold_Qplus_acc (l : list Q) (a : Q) :
  fold_left Qplus l a == a + fold_left Qplus l 0.
Proof.
  revert a. induction l as [| x l IH]; intro a; simpl; [ring |].
  rewrite (IH (a + x)), (IH (0 + x)). ring.
Qed.

Lemma Qsum_cons (x : Q) (l : list Q) : Qsum (x :: l) == x + Qsum l.
Proof.
  unfold Qsum. simpl. rewrite fold_Qplus_acc. ring.
Qed.

Lemma Qsum_app (l l' : list Q) : Qsum (l ++ l') == Qsum l + Qsum l'.
Proof.
  induction l as [| x l IH]; simpl.
  - unfold Qsum at 2. simpl. ring.
  - rewrite !Qsum_cons, IH. ring.
Qed.

Lemma Qsum_map_ext {A : Type} (f g : A -> Q) (l : list A) :
  (forall a, In a l -> f a == g a) -> Qsum (map f l) == Qsum (map g l).
Proof.
  induction l as [| a l IH]; intro H; simpl; [reflexivity |].
  rewrite !Qsum_cons, IH, (H a); [reflexivity | left; reflexivity |].
  intros b Hb. apply H. right. exact Hb.
Qed.

Lemma Qsum_map_plus {A : Type} (f g : A -> Q) (l : list A) :
  Qsum (map (fun a => f a + g a) l) == Qsum (map f l) + Qsum (map g l).
Proof.
  induction l as [| a l IH]; simpl.
  - unfold Qsum. simpl. ring.
  - rewrite !Qsum_cons, IH. ring.
Qed.

Lemma Qsum_map_zero {A : Type} (l : list A) : Qsum (map (fun _ => 0) l) == 0.
Proof.
  induction l as [| a l IH]; simpl; [reflexivity |].
  rewrite Qsum_cons, IH. ring.
Qed.

Lemma Qsum_flat_map {A : Type} (f : A -> list Q) (l : list A) :
  Qsum (flat_map f l) == Qsum (map (fun a => Qsum (f a)) l).
Proof.
  induction l as [| a l IH]; simpl; [reflexivity |].
  rewrite Qsum_app, Qsum_cons, IH. reflexivity.
Qed.

(** A double sum, rows first or columns first. *)
Lemma Qsum_exchange {A B : Type} (a : A -> B -> Q) (I : list A) (J : list B) :
  Qsum (map (fun j => Qsum (map (fun i => a i j) I)) J)
  == Qsum (map (fun i => Qsum (map (fun j => a i j) J)) I).
Proof.
  induction I as [| i I IH]; simpl.
  - apply Qsum_map_zero.
  - rewrite Qsum_cons, <- IH, <- Qsum_map_plus.
    apply Qsum_map_ext. intros j _. apply Qsum_cons.
Qed.

Lemma Qsum_nonneg (l : list Q) : Forall (fun x => 0 <= x) l -> 0 <= Qsum l.
Proof.
  induction 1 as [| x l Hx Hl IH]; [apply Qle_refl |].
  rewrite Qsum_cons. lra.
Qed.

Lemma Qsum_pos_member (l : list Q) (x : Q) :
  Forall (fun x => 0 <= x) l -> In x l -> 0 < x -> 0 < Qsum l.
Proof.
  induction 1 as [| y l Hy Hl IH]; intros Hin Hx; [destruct Hin |].
  rewrite Qsum_cons. pose proof (Qsum_nonneg l Hl) as Hs.
  destruct Hin as [-> | Hin]; [lra |]. specialize (IH Hin Hx). lra.
Qed.

Lemma sum_axis1_entries (A : ndarray) : Qsum (sum_axis1 A) == asum A.
Proof.
  unfold sum_axis1, asum, entries. symmetry. apply Qsum_flat_map.
Qed.

Lemma sum_axis0_entries (A : ndarray) : Qsum (sum_axis0 A) == asum A.
Proof.
  rewrite <- sum_axis1_entries. unfold sum_axis0, sum_axis1, col, row.
  apply (Qsum_exchange (at2 A)).
Qed.

Lemma asum_div_scalar (A : ndarray) (c : Q) :
  asum (div_scalar A c) == asum A / c.
Proof.
  rewrite <- !sum_axis1_entries. unfold sum_axis1. simpl.
  rewrite <- Qsum_div, map_map. apply Qsum_map_ext. intros i _.
  unfold row. simpl. rewrite <- Qsum_div, map_map. reflexivity.
Qed.

Section Marginals.
Variable Y : ndarray.
Hypothesis Hnn : nonnegative Y.
Hypothesis Hpos : every_row_positive Y.
Hypothesis Hn : (0 < nrows Y)%nat.

Lemma row_sum_positive (i : nat) : (i < nrows Y)%nat -> 0 < Qsum (row Y i).
Proof.
  intro Hi. destruct (Hpos i Hi) as (j & Hj & Hij).
  apply Qsum_pos_member with (x := at2 Y i j); [| | exact Hij].
  - apply Forall_forall. intros z Hz. apply in_row in Hz.
    destruct Hz as (k & Hk & ->). apply Hnn; assumption.
  - apply in_row. eauto.
Qed.

Lemma grand_total_positive : 0 < asum Y.
Proof.
  rewrite <- sum_axis1_entries. unfold sum_axis1.
  apply Qsum_pos_member with (x := Qsum (row Y 0)).
  - apply Forall_forall. intros z Hz. apply in_map_iff in Hz.
    destruct Hz as (i & <- & Hi). apply in_seq in Hi.
    apply Qlt_le_weak, row_sum_positive. lia.
  - apply in_map_iff. exists 0%nat. split; [reflexivity | apply in_seq; lia].
  - apply row_sum_positive, Hn.
Qed.

Lemma frequencies_nonneg (i j : nat) :
  (i < nrows Y)%nat -> (j < ncols Y)%nat -> 0 <= at2 (div_scalar Y (asum Y)) i j.
Proof.
  intros Hi Hj. simpl. pose proof grand_total_positive as Ht.
  apply Qle_shift_div_l; [exact Ht |]. rewrite Qmult_0_l. apply Hnn; assumption.
Qed.

Lemma row_marginals_positive :
  Forall (fun r => 0 < r) (sum_axis1 (div_scalar Y (asum Y))).
Proof.
  apply Forall_forall. intros r Hr. unfold sum_axis1 in Hr.
  apply in_map_iff in Hr. destruct Hr as (i & <- & Hi). apply in_seq in Hi.
  simpl in Hi.
  assert (Hrow : row (div_scalar Y (asum Y)) i
                 = map (fun a => a / asum Y) (row Y i)).
  { unfold row. simpl. rewrite map_map. reflexivity. }
  rewrite Hrow, Qsum_div. pose proof grand_total_positive as Ht.
  apply Qlt_shift_div_l; [exact Ht |]. rewrite Qmult_0_l.
  apply row_sum_positive. lia.
Qed.

Lemma column_marginals_nonneg :
  Forall (fun c => 0 <= c) (sum_axis0 (div_scalar Y (asum Y))).
Proof.
  apply Forall_forall. intros c Hc. unfold sum_axis0 in Hc.
  apply in_map_iff in Hc. destruct Hc as (j & <- & Hj). apply in_seq in Hj.
  simpl in Hj. apply Qsum_nonneg, Forall_forall. intros z Hz.
  unfold col in Hz. apply in_map_iff in Hz. destruct Hz as (i & <- & Hi).
  apply in_seq in Hi. simpl in Hi. apply frequencies_nonneg; lia.
Qed.

Lemma frequencies_total : asum (div_scalar Y (asum Y)) == 1.
Proof.
  rewrite asum_div_scalar. pose proof grand_total_positive as Ht.
  field. intro H0. rewrite H0 in Ht. apply (Qlt_irrefl 0), Ht.
Qed.
End Marginals.



(** * The tables of the result *)

Lemma validate_other_scaling (Y X : ndarray) (scaling scaling' : Z) :
  validate Y X scaling = inr tt -> (scaling' = 1 \/ scaling' = 2)%Z ->
  validate Y X scaling' = inr tt.
Proof.
  unfold validate. intros H Hs.
  destruct (negb (nrows X =? nrows Y)%nat); [discriminate |].
  destruct (amin Y) as [e | Ymin]; simpl in *; [discriminate |].
  destruct (Qlt_bool Ymin 0); [discriminate |].
  destruct (amax_axis1 Y) as [e | row_max]; simpl in *; [discriminate |].
  destruct (existsb _ row_max); [discriminate |].
  destruct Hs as [-> | ->]; reflexivity.
Qed.

(** The two blocks of each stacked table, whatever the scaling. *)
Lemma select_scores_blocks (scaling : Z) (L : Locals.t)
    (species site constraints : ndarray) :
  select_scores scaling L = inr (species, site, constraints) ->
  exists Vf Vr Ff Fr Zf,
    hstack Vf Vr = inr species /\ hstack Ff Fr = inr site /\
    hstack Zf Fr = inr constraints /\
    ((scaling = 1%Z /\ Vf = Locals.V L /\ Vr = Locals.V_res L /\
      Ff = Locals.F L /\ Fr = Locals.F_res L /\ Zf = Locals.Z_scaling1 L) \/
     (scaling = 2%Z /\ Vf = Locals.F_hat L /\ Vr = Locals.F_hat_res L /\
      Ff = Locals.V_hat L /\ Fr = Locals.V_hat_res L /\
      Zf = Locals.Z_scaling2 L)).
Proof.
  unfold select_scores. intro H.
  destruct (scaling =? 1)%Z eqn:E1; [| destruct (scaling =? 2)%Z eqn:E2;
                                       [| discriminate]].
  - apply Z.eqb_eq in E1.
    apply bind_inr in H. destruct H as (a & Ha & H).
    apply bind_inr in H. destruct H as (b & Hb & H).
    apply bind_inr in H. destruct H as (c & Hc & H).
    injection H as <- <- <-.
    exists (Locals.V L), (Locals.V_res L), (Locals.F L), (Locals.F_res L),
      (Locals.Z_scaling1 L). repeat split; try assumption. left. auto 7.
  - apply Z.eqb_eq in E2.
    apply bind_inr in H. destruct H as (a & Ha & H).
    apply bind_inr in H. destruct H as (b & Hb & H).
    apply bind_inr in H. destruct H as (c & Hc & H).
    injection H as <- <- <-.
    exists (Locals.F_hat L), (Locals.F_hat_res L), (Locals.V_hat L),
      (Locals.V_hat_res L), (Locals.Z_scaling2 L).
    repeat split; try assumption. right. auto 7.
Qed.







(** * Entries of the score tables *)

Lemma nth_map_inv (l : list Q) (j : nat) : nth j (map Qinv l) 0 = / nth j l 0.
Proof. change 0 with (/ 0) at 1. apply map_nth. Qed.

Lemma nth_map_lt {A : Type} (f : A -> Q) (l : list A) (d : A) (i : nat) :
  (i < length l)%nat -> nth i (map f l) 0 = f (nth i l d).
Proof.
  intro Hi. rewrite (nth_indep _ 0 (f d)) by (rewrite length_map; exact Hi).
  apply map_nth.
Qed.

Section Entries.
Variable np : Numpy.
Hypothesis Hnp : linalg_ok np.
Variables Y X : ndarray.
Hypothesis Hrows : nrows X = nrows Y.
Variable L : Locals.t.
Hypothesis HL : decomposed np Y X L.

(** [Z_scaling2 = Z_scaling1 * s**-1], column by column. *)
Lemma Z_scaling2_spec :
  forall i j, (i < nrows Y)%nat -> (j < length (Locals.s L))%nat ->
    at2 (Locals.Z_scaling2 L) i j
    = at2 (Locals.Z_scaling1 L) i j * / nth j (Locals.s L) 0.
Proof.
  pose proof (Z_scaling1_shape np Hnp Y X Hrows L HL) as HZ.
  unfold shape in HZ. injection HZ as HZn HZm.
  pose proof (dec_Z_scaling2 _ _ _ _ HL) as H.
  apply row_vec_mul_inr in H; [| rewrite length_map; congruence].
  destruct H as (_ & _ & Hat). intros i j Hi Hj.
  rewrite Hat by congruence. rewrite nth_map_inv. reflexivity.
Qed.

(** [V = column_marginals**-0.5 * U] with [U = vt.T], entry by entry. *)
Lemma V_spec :
  forall i j, (i < ncols Y)%nat -> (j < length (Locals.s L))%nat ->
    at2 (Locals.V L) i j
    = pow_neg_half np (nth i (Locals.column_marginals L) 0)
      * at2 (svd_vt (linalg_svd np (Locals.Y_hat L))) j i.
Proof.
  pose proof (U_shape np Hnp Y X Hrows L HL) as HU.
  unfold shape in HU. injection HU as HUn HUm.
  pose proof (column_marginals_length np Y X L HL) as Hcm.
  pose proof (dec_V _ _ _ _ HL) as H.
  apply col_vec_mul_inr in H; [| rewrite length_map; congruence].
  destruct H as (_ & _ & Hat). intros i j Hi Hj.
  rewrite Hat by congruence.
  rewrite (nth_map_lt _ _ 0) by congruence.
  rewrite (dec_U _ _ _ _ HL). reflexivity.
Qed.

Lemma V_res_spec :
  forall i j, (i < ncols Y)%nat -> (j < length (Locals.s_res L))%nat ->
    at2 (Locals.V_res L) i j
    = pow_neg_half np (nth i (Locals.column_marginals L) 0)
      * at2 (svd_vt (linalg_svd np (Locals.Y_res L))) j i.
Proof.
  pose proof (U_res_shape np Hnp Y X Hrows L HL) as HU.
  unfold shape in HU. injection HU as HUn HUm.
  pose proof (column_marginals_length np Y X L HL) as Hcm.
  pose proof (dec_V_res _ _ _ _ HL) as H.
  apply col_vec_mul_inr in H; [| rewrite length_map; congruence].
  destruct H as (_ & _ & Hat). intros i j Hi Hj.
  rewrite Hat by congruence.
  rewrite (nth_map_lt _ _ 0) by congruence.
  rewrite (dec_U_res _ _ _ _ HL). reflexivity.
Qed.
End Entries.





Lemma dot_inr_at (A B C : ndarray) :
  dot A B = inr C ->
  forall i j, at2 C i j
    = Qsum (map (fun k => at2 A i k * at2 B k j) (seq 0 (ncols A))).
Proof.
  unfold dot. destruct (ncols A =? nrows B)%nat; [| discriminate].
  intros [= <-]. reflexivity.
Qed.

Section SampleScores.
Variable np : Numpy.
Hypothesis Hnp : linalg_ok np.
Variables Y X : ndarray.
Hypothesis Hrows : nrows X = nrows Y.
Variable L : Locals.t.
Hypothesis HL : decomposed np Y X L.

(** [V_hat = row_marginals**-0.5 * (Q_bar.dot(U) * s**-1)], entry by entry. *)
Lemma V_hat_spec :
  forall i j, (i < nrows Y)%nat -> (j < length (Locals.s L))%nat ->
    at2 (Locals.V_hat L) i j
    = pow_neg_half np (nth i (Locals.row_marginals L) 0)
      * (Qsum (map (fun k => at2 (Locals.Q_bar L) i k
                             * at2 (svd_vt (linalg_svd np (Locals.Y_hat L))) j k)
                   (seq 0 (ncols Y)))
         * / nth j (Locals.s L) 0).
Proof.
  pose proof (U_shape np Hnp Y X Hrows L HL) as HU.
  unfold shape in HU. injection HU as HUn HUm.
  pose proof (Q_bar_shape np Y X Hrows L HL) as HQ.
  unfold shape in HQ. injection HQ as HQn HQm.
  pose proof (U_hat_shape np Hnp Y X Hrows L HL) as HUh.
  unfold shape in HUh. injection HUh as HUhn HUhm.
  pose proof (row_marginals_length np Y X L HL) as Hrm.
  destruct (dec_U_hat _ _ _ _ HL) as (QU & HQU & HUhat).
  pose proof (dot_inr_at _ _ _ HQU) as HQUat.
  apply dot_inr in HQU. destruct HQU as (_ & HQUn & HQUm).
  apply row_vec_mul_inr in HUhat; [| rewrite length_map; congruence].
  destruct HUhat as (_ & _ & HUat).
  pose proof (dec_V_hat _ _ _ _ HL) as H.
  apply col_vec_mul_inr in H; [| rewrite length_map; congruence].
  destruct H as (_ & _ & Hat). intros i j Hi Hj.
  rewrite Hat by congruence.
  rewrite (nth_map_lt _ _ 0) by congruence.
  rewrite HUat by congruence. rewrite HQUat, nth_map_inv, HQm.
  rewrite (dec_U _ _ _ _ HL). reflexivity.
Qed.

Lemma V_hat_res_spec :
  forall i j, (i < nrows Y)%nat -> (j < length (Locals.s_res L))%nat ->
    at2 (Locals.V_hat_res L) i j
    = pow_neg_half np (nth i (Locals.row_marginals L) 0)
      * (Qsum (map (fun k => at2 (Locals.Y_res L) i k
                             * at2 (svd_vt (linalg_svd np (Locals.Y_res L))) j k)
                   (seq 0 (ncols Y)))
         * / nth j (Locals.s_res L) 0).
Proof.
  pose proof (U_res_shape np Hnp Y X Hrows L HL) as HU.
  unfold shape in HU. injection HU as HUn HUm.
  pose proof (Y_res_shape np Hnp Y X Hrows L HL) as HQ.
  unfold shape in HQ. injection HQ as HQn HQm.
  pose proof (U_hat_res_shape np Hnp Y X Hrows L HL) as HUh.
  unfold shape in HUh. injection HUh as HUhn HUhm.
  pose proof (row_marginals_length np Y X L HL) as Hrm.
  destruct (dec_U_hat_res _ _ _ _ HL) as (QU & HQU & HUhat).
  pose proof (dot_inr_at _ _ _ HQU) as HQUat.
  apply dot_inr in HQU. destruct HQU as (_ & HQUn & HQUm).
  apply row_vec_mul_inr in HUhat; [| rewrite length_map; congruence].
  destruct HUhat as (_ & _ & HUat).
  pose proof (dec_V_hat_res _ _ _ _ HL) as H.
  apply col_vec_mul_inr in H; [| rewrite length_map; congruence].
  destruct H as (_ & _ & Hat). intros i j Hi Hj.
  rewrite Hat by congruence.
  rewrite (nth_map_lt _ _ 0) by congruence.
  rewrite HUat by congruence. rewrite HQUat, nth_map_inv, HQm.
  rewrite (dec_U_res _ _ _ _ HL). reflexivity.
Qed.
End SampleScores.



(** * Ranges *)

Lemma Qsum_ge_member (l : list Q) (x : Q) :
  Forall (fun x => 0 <= x) l -> In x l -> x <= Qsum l.
Proof.
  induction 1 as [| y l Hy Hl IH]; intro Hin; [destruct Hin |].
  rewrite Qsum_cons. pose proof (Qsum_nonneg l Hl) as Hs.
  destruct Hin as [-> | Hin]; [lra |]. specialize (IH Hin). lra.
Qed.

Lemma squares_nonneg (l : list Q) : Forall (fun e => 0 <= e) (map (fun v => v * v) l).
Proof.
  apply Forall_forall. intros e He. apply in_map_iff in He.
  destruct He as (v & <- & _). nra.
Qed.



(** * No constraint *)


